(** * ValidatorAccumulator: the block coordinator ([accumulator.go])

    A shallow embedding of [Accumulator.Init] and [Accumulator.Run] from
    [ValAcc/accumulator/accumulator.go], together with the parts of the
    [types], [database], [node] and [merkleDag] packages that the
    coordinator calls.

    Conventions.
    - A [types.Hash] ([[32]byte]) is a [list byte]; [bytes.Compare] is
      written out on such lists.
    - Go maps are [gmap]s.  The order in which [range] visits a map is not
      specified by the language; it is an input of the flush ([World]).
    - The three channels are not state: what the [select] of the run loop
      receives is an [event]; what is sent on [mdFeed] is appended to a
      list.
    - A Go [panic] is the [Panic] result. *)

From Stdlib Require Import ZArith Lia.
From Stdlib Require Import Strings.Byte.
From stdpp Require Import base option list sorting countable gmap fin_maps.

Local Open Scope Z_scope.

(** ** Results of code that can panic, and loop control *)

Inductive panic :=
| NilDereference        (* [*p] with [p == nil] *)
| DivideByZero          (* integer division by zero *)
| NoHeadNode            (* Init: "no head found for the directory blocks" *)
| UnmarshalError.       (* Init: "error unmarshaling the head" *)

Inductive outcome (A : Type) :=
| Ok (x : A)
| Panic (p : panic).
Arguments Ok {A} x.
Arguments Panic {A} p.

(** A panic aborts what follows: [x ← r; k] is stdpp's bind notation. *)
#[global] Instance outcome_bind : MBind outcome := fun A B k r =>
  match r with
  | Ok x => k x
  | Panic p => Panic p
  end.

(** What one pass through a [for] body asks of its loop. *)
Inductive ctrl (S : Type) :=
| Continue (s : S)      (* go round again *)
| Break (s : S).        (* leave the loop *)
Arguments Continue {S} s.
Arguments Break {S} s.

(** ** Bytes *)

#[global] Instance byte_eq_dec : EqDecision byte := Byte.byte_eq_dec.

#[global] Instance byte_countable : Countable byte :=
  inj_countable Byte.to_N Byte.of_N Byte.of_to_N.

(** [bytes.Compare(a, b)]: -1, 0 or +1, lexicographic on unsigned bytes; a
    proper prefix is smaller. *)
Fixpoint bytes_Compare (a b : list byte) : Z :=
  match a, b with
  | [], [] => 0
  | [], _ :: _ => -1
  | _ :: _, [] => 1
  | x :: a', y :: b' =>
      match N.compare (Byte.to_N x) (Byte.to_N y) with
      | Lt => -1
      | Gt => 1
      | Eq => bytes_Compare a' b'
      end
  end.

(** ** Package [types] *)

Module types.

(** [type Hash [32]byte] *)
Definition Hash := list byte.

(** The zero value of [Hash]. *)
Definition Hash_zero : Hash := repeat Byte.x00 32.

(** Modelled from the spec: the declarations of [types.BlockHeight],
    [types.Sequence], [types.TimeStamp] and [types.VersionField] are not
    among the sources; the spec gives u64, u64, i64 and u16.  Values are
    integers, and the one arithmetic operation of the coordinator,
    [BHeight + 1], wraps at the width. *)
Definition BlockHeight := Z.
Definition Sequence := Z.
Definition TimeStamp := Z.
Definition VersionField := Z.

Definition BlockHeight_modulus : Z := 2 ^ 64.

(** [h + 1] on [BlockHeight]. *)
Definition BlockHeight_succ (h : BlockHeight) : BlockHeight :=
  (h + 1) mod BlockHeight_modulus.

(** The two buckets the coordinator uses ([types.Node], [types.NodeHead]). *)
Inductive Bucket := Node | NodeHead.

#[global] Instance Bucket_eq_dec : EqDecision Bucket.
Proof. solve_decision. Defined.

Definition Bucket_tag (b : Bucket) : bool :=
  match b with Node => false | NodeHead => true end.

Definition Bucket_of_tag (t : bool) : Bucket :=
  if t then NodeHead else Node.

#[global] Instance Bucket_countable : Countable Bucket :=
  inj_countable' Bucket_tag Bucket_of_tag
    (fun b => match b with Node => eq_refl | NodeHead => eq_refl end).

End types.

(** ** Package [database] *)

Module database.

(** Modelled from the spec: [database.DB] is not among the sources; the
    spec gives it as a byte-addressable store with [Put(ns, key, value)],
    which overwrites, and [Get(ns, key)], where absence is not an error
    (the Go code tests the result against [nil]). *)
Abbreviation DB := (gmap (types.Bucket * list byte) (list byte)).

(** Modelled from the spec: [Get] of the store, [None] when the key is
    absent. *)
Definition Get (db : DB) (bucket : types.Bucket) (key : list byte)
  : option (list byte) :=
  db !! (bucket, key).

(** Modelled from the spec: [Put] of the store, which overwrites. *)
Definition Put (db : DB) (bucket : types.Bucket) (key value : list byte)
  : DB :=
  <[(bucket, key) := value]> db.

End database.

(** ** Package [node] *)

Module node.

(** Modelled from the spec: package [node] is not among the sources.  The
    fields of [node.Node] are those that [accumulator.go] reads or writes,
    with the types the spec gives them. *)
Record Node := mkNode {
  Version : types.VersionField;
  ChainID : types.Hash;
  BHeight : types.BlockHeight;
  SequenceNum : types.Sequence;
  TimeStamp : types.TimeStamp;
  Previous : types.Hash;
  IsNode : bool;
  ListMDRoot : types.Hash;
  EntryList : list types.Hash
}.

(** [new(node.Node)] / [var n node.Node]: every field at its zero value. *)
Definition zero : Node :=
  {| Version := 0; ChainID := types.Hash_zero; BHeight := 0;
     SequenceNum := 0; TimeStamp := 0; Previous := types.Hash_zero;
     IsNode := false; ListMDRoot := types.Hash_zero; EntryList := [] |}.

(** Field assignments [n.F = v]. *)
Definition set_Version v (n : Node) :=
  mkNode v (ChainID n) (BHeight n) (SequenceNum n) (TimeStamp n)
         (Previous n) (IsNode n) (ListMDRoot n) (EntryList n).
Definition set_ChainID v (n : Node) :=
  mkNode (Version n) v (BHeight n) (SequenceNum n) (TimeStamp n)
         (Previous n) (IsNode n) (ListMDRoot n) (EntryList n).
Definition set_BHeight v (n : Node) :=
  mkNode (Version n) (ChainID n) v (SequenceNum n) (TimeStamp n)
         (Previous n) (IsNode n) (ListMDRoot n) (EntryList n).
Definition set_SequenceNum v (n : Node) :=
  mkNode (Version n) (ChainID n) (BHeight n) v (TimeStamp n)
         (Previous n) (IsNode n) (ListMDRoot n) (EntryList n).
Definition set_TimeStamp v (n : Node) :=
  mkNode (Version n) (ChainID n) (BHeight n) (SequenceNum n) v
         (Previous n) (IsNode n) (ListMDRoot n) (EntryList n).
Definition set_Previous v (n : Node) :=
  mkNode (Version n) (ChainID n) (BHeight n) (SequenceNum n) (TimeStamp n)
         v (IsNode n) (ListMDRoot n) (EntryList n).
Definition set_IsNode v (n : Node) :=
  mkNode (Version n) (ChainID n) (BHeight n) (SequenceNum n) (TimeStamp n)
         (Previous n) v (ListMDRoot n) (EntryList n).
Definition set_ListMDRoot v (n : Node) :=
  mkNode (Version n) (ChainID n) (BHeight n) (SequenceNum n) (TimeStamp n)
         (Previous n) (IsNode n) v (EntryList n).
Definition set_EntryList v (n : Node) :=
  mkNode (Version n) (ChainID n) (BHeight n) (SequenceNum n) (TimeStamp n)
         (Previous n) (IsNode n) (ListMDRoot n) v.

(** [node.EntryHash]: what arrives on the entry feed. *)
Record EntryHash := mkEntryHash {
  EH_ChainID : types.Hash;
  EH_EntryHash : types.Hash
}.

(** [node.NEList]: one line of the directory, a chain and its MD root. *)
Record NEList := mkNEList {
  NE_ChainID : types.Hash;
  NE_MDRoot : types.Hash
}.

(** The methods of [node.Node] that the coordinator calls.  [GetHash], a
    digest of the serialization, and [Marshal] are parameters. *)
Section Methods.
Variable GetHash : Node -> types.Hash.
Variable Marshal : Node -> list byte.

(** Modelled from the spec: [n.Put(db)] persists the node in the [NODE]
    namespace, key [GetHash(n)], value the serialized node. *)
Definition Put (db : database.DB) (n : Node) : database.DB :=
  database.Put db types.Node (GetHash n) (Marshal n).

(** Modelled from the spec: [n.GetMDRoot()] is the MD root over the node's
    contents, its [ListMDRoot]. *)
Definition GetMDRoot (n : Node) : types.Hash := ListMDRoot n.
End Methods.

End node.

(** ** Package [merkleDag] *)

Module merkleDag.

(** Modelled from the spec: [merkleDag.MD] is not among the sources.  The
    spec gives it as the ordered leaf list together with a frontier that
    holds, per level, at most one pending hash.  [HashIt a b] is the
    digest of the concatenation of [a] and [b]. *)
Record MD := mkMD {
  HashList : list types.Hash;
  heads : list (option types.Hash)
}.

(** Modelled from the spec: [new(merkleDag.MD)], no leaves, an empty
    frontier. *)
Definition empty : MD := {| HashList := []; heads := [] |}.

Section Hashing.
Variable HashIt : types.Hash -> types.Hash -> types.Hash.

(** Modelled from the spec: carry [cur] up the frontier; while the level
    is occupied, combine and clear it; park the result at the first free
    level. *)
Fixpoint carry (cur : types.Hash) (F : list (option types.Hash))
  : list (option types.Hash) :=
  match F with
  | [] => [Some cur]
  | None :: F' => Some cur :: F'
  | Some f :: F' => None :: carry (HashIt f cur) F'
  end.

(** Modelled from the spec: [md.AddToChain(h)] appends [h] to the leaf
    list and carries it up the frontier. *)
Definition AddToChain (md : MD) (h : types.Hash) : MD :=
  {| HashList := HashList md ++ [h]; heads := carry h (heads md) |}.

(** Modelled from the spec: fold the occupied levels, lowest first,
    [acc = H(F[k] || acc)]. *)
Fixpoint fold_heads (acc : option types.Hash)
  (F : list (option types.Hash)) : option types.Hash :=
  match F with
  | [] => acc
  | None :: F' => fold_heads acc F'
  | Some f :: F' =>
      fold_heads (Some (match acc with
                        | None => f
                        | Some r => HashIt f r
                        end)) F'
  end.

(** Modelled from the spec: [md.GetMDRoot()], the zero digest for an
    empty MD. *)
Definition GetMDRoot (md : MD) : types.Hash :=
  default types.Hash_zero (fold_heads None (heads md)).

(** An MD fed with a list of hashes, first to last. *)
Definition of_list (hs : list types.Hash) : MD :=
  foldl AddToChain empty hs.
End Hashing.

End merkleDag.


(** ** Package [accumulator] *)

Module accumulator.

(** Modelled from the spec: [ChainAcc] and [NewChainAcc] are declared in a
    file of the package that is not among the sources.  The spec gives the
    chain accumulator as one MD plus a leaf-list node template seeded with
    the chain id of the first entry and the height of the block. *)
Record ChainAcc := mkChainAcc {
  Node : node.Node;
  MD : merkleDag.MD
}.

(** Modelled from the spec: [NewChainAcc] seeds the node template with
    the chain id and the block height; the MD is empty. *)
Definition NewChainAcc (db : database.DB) (eHash : node.EntryHash)
  (bHeight : types.BlockHeight) : ChainAcc :=
  {| Node := node.set_BHeight bHeight
               (node.set_ChainID (node.EH_ChainID eHash) node.zero);
     MD := merkleDag.empty |}.

(** [type Accumulator struct].  [DB] and [chainID] are pointers that [Init]
    assigns before anything reads them; they are held by value.  [previous]
    stays [nil] when [Init] finds no head: it is an [option].  [mdFeed] is
    the list of roots sent so far; [entryFeed] and [control] are the
    [event]s below. *)
Record Accumulator := mkAccumulator {
  DB : database.DB;
  chainID : types.Hash;
  height : types.BlockHeight;
  chains : gmap types.Hash ChainAcc;
  mdFeed : list types.Hash;
  previous : option node.Node
}.

(** [new(Accumulator)] *)
Definition Accumulator_zero : Accumulator :=
  {| DB := ∅; chainID := types.Hash_zero; height := 0; chains := ∅;
     mdFeed := []; previous := None |}.

(** What a receive on [a.control] finds: a value that was sent, or the
    channel closed (a receive on a closed channel does not block and
    yields the zero value, [false]). *)
Inductive control_recv :=
| Sent (ctl : bool)
| Closed.

Definition received (m : control_recv) : bool :=
  match m with
  | Sent ctl => ctl
  | Closed => false
  end.

(** The case that the [select] of the block loop takes. *)
Inductive event :=
| RecvControl (m : control_recv)       (* case ctl := <-a.control *)
| RecvEntry (entry : node.EntryHash)   (* case entry := <-a.entryFeed *)
| NothingReady.                        (* default *)

(** What a flush reads from outside the coordinator. *)
Record World := mkWorld {
  (* the order in which [range a.chains] visits the map *)
  range_chains : list (types.Hash * ChainAcc) -> list (types.Hash * ChainAcc);
  (* [time.Now().Unix() - start.Unix()] *)
  elapsed_secs : Z;
  (* [time.Now().UnixNano()] *)
  now_nanos : Z
}.

(** [range] visits every key of the map once. *)
Definition range_ok (w : World) : Prop :=
  forall l, range_chains w l ≡ₚ l.

(** Integer division as Go evaluates it. *)
Definition int64_div (x y : Z) : outcome Z :=
  if y =? 0 then Panic DivideByZero else Ok (Z.quot x y).

(** *** [sort.Slice]

    For short slices [sort.Slice] is an insertion sort: each element in
    turn is swapped leftwards while it is [less] than its left neighbour.
    [insert_left] takes the sorted prefix last element first.  The
    comparison function of the flush is a strict total order on the chain
    ids, which are pairwise distinct, so every sorting algorithm returns
    the same slice ([sort_Slice_canonical] below). *)
Section sort.
Context {A : Type} (less : A -> A -> bool).

Fixpoint insert_left (x : A) (rprefix : list A) : list A :=
  match rprefix with
  | [] => [x]
  | y :: rprefix' =>
      if less x y then y :: insert_left x rprefix' else x :: rprefix
  end.

Definition sort_Slice (data : list A) : list A :=
  rev (foldl (fun rprefix x => insert_left x rprefix) [] data).
End sort.

(** [func(i, j int) bool { return bytes.Compare(chainEntries[i].ChainID[:],
    chainEntries[j].ChainID[:]) < 0 }] *)
Definition chainEntries_less (x y : node.NEList) : bool :=
  bytes_Compare (node.NE_ChainID x) (node.NE_ChainID y) <? 0.

(** The order that the comparison function decides: strictly ascending by
    chain id. *)
Definition chain_lt (x y : node.NEList) : Prop :=
  bytes_Compare (node.NE_ChainID x) (node.NE_ChainID y) < 0.

Section Coordinator.

(** The digest of two hashes, the digest and the codec of a node, and the
    constant [types.Version]: parameters of the development. *)
Variable HashIt : types.Hash -> types.Hash -> types.Hash.
Variable GetHash : node.Node -> types.Hash.
Variable Marshal : node.Node -> list byte.
Variable Unmarshal : list byte -> option (list byte * node.Node).
Variable Version : types.VersionField.

(** *** [Init] *)

Definition Init (a : Accumulator) (db : database.DB) (id : types.Hash)
  : outcome Accumulator :=
  let a := mkAccumulator db id (height a) (chains a) (mdFeed a)
             (previous a) in
  a ← match database.Get db types.NodeHead (chainID a) with
      | Some headHash =>
          match database.Get db types.Node headHash with
          | None => Panic NoHeadNode
          | Some head =>
              match Unmarshal head with
              | None => Panic UnmarshalError
              | Some (_, headNode) =>
                  Ok (mkAccumulator (DB a) (chainID a)
                        (types.BlockHeight_succ (node.BHeight headNode))
                        (chains a) (mdFeed a) (Some headNode))
              end
          end
      | None => Ok a
      end;
  Ok (mkAccumulator (DB a) (chainID a) (height a) ∅ [] (previous a)).

(** *** [Run]: the block loop *)

(** One pass through the [select] of the loop labelled [block]. *)
Definition block_select (a : Accumulator) (ev : event) : ctrl Accumulator :=
  match ev with
  | RecvControl m =>
      let ctl := received m in
      if ctl then Break a else Continue a
  | RecvEntry entry =>
      let chain :=
        match chains a !! node.EH_ChainID entry with
        | Some chain => chain
        | None => NewChainAcc (DB a) entry (height a)
        end in
      let chain :=
        mkChainAcc (Node chain)
          (merkleDag.AddToChain HashIt (MD chain) (node.EH_EntryHash entry)) in
      Continue (mkAccumulator (DB a) (chainID a) (height a)
                  (<[node.EH_ChainID entry := chain]> (chains a))
                  (mdFeed a) (previous a))
  | NothingReady => Continue a
  end.

(** *** [Run]: the flush *)

(** The leaf-list node of a chain as the first loop of the flush completes
    it. *)
Definition leaf_node (v : ChainAcc) : node.Node :=
  let n := Node v in
  let n := node.set_ListMDRoot (merkleDag.GetMDRoot HashIt (MD v)) n in
  let n := node.set_EntryList (merkleDag.HashList (MD v)) n in
  let n := node.set_IsNode false n in
  n.

(** The body of [for _, v := range a.chains]: complete the node, put it,
    append its line to [chainEntries]. *)
Definition flush_chain (st : database.DB * list node.NEList)
  (kv : types.Hash * ChainAcc) : database.DB * list node.NEList :=
  let n := leaf_node kv.2 in
  let db := node.Put GetHash Marshal st.1 n in
  let ne := node.mkNEList (node.ChainID n) (node.ListMDRoot n) in
  (db, st.2 ++ [ne]).

(** The chains in the order the flush visits them. *)
Definition visited (w : World) (a : Accumulator)
  : list (types.Hash * ChainAcc) :=
  range_chains w (map_to_list (chains a)).

Definition flush_chains (w : World) (a : Accumulator)
  : database.DB * list node.NEList :=
  foldl flush_chain (DB a, []) (visited w a).

(** [chainEntries] after [sort.Slice]. *)
Definition sorted_chainEntries (w : World) (a : Accumulator)
  : list node.NEList :=
  sort_Slice chainEntries_less (flush_chains w a).2.

(** [MDAcc]: the MD of the directory block. *)
Definition MDAcc (w : World) (a : Accumulator) : merkleDag.MD :=
  foldl (fun md v => merkleDag.AddToChain HashIt md (node.NE_MDRoot v))
        merkleDag.empty (sorted_chainEntries w a).

(** "Populate the directory block": the assignments in the order of the
    source.  The guard reads [SequenceNum] of the node as it stands at that
    point, and its branch dereferences [a.previous]. *)
Definition directoryBlock (w : World) (a : Accumulator)
  : outcome node.Node :=
  let directoryBlock := node.zero in
  let directoryBlock := node.set_Version Version directoryBlock in
  let directoryBlock := node.set_ChainID (chainID a) directoryBlock in
  let directoryBlock := node.set_BHeight (height a) directoryBlock in
  directoryBlock ←
    (if 0 <? node.SequenceNum directoryBlock then
       match previous a with
       | None => Panic NilDereference
       | Some p => Ok (node.set_Previous (GetHash p) directoryBlock)
       end
     else Ok directoryBlock);
  let directoryBlock := node.set_SequenceNum (height a) directoryBlock in
  let directoryBlock := node.set_TimeStamp (now_nanos w) directoryBlock in
  let directoryBlock := node.set_IsNode true directoryBlock in
  let directoryBlock :=
    node.set_ListMDRoot (merkleDag.GetMDRoot HashIt (MDAcc w a))
      directoryBlock in
  Ok directoryBlock.

(** The local variables of [Run] that outlive a block, with the record of
    the directory blocks put so far, oldest first. *)
Record Run_state := mkRun {
  this : Accumulator;
  total : Z;
  directory : list node.Node
}.

(** From the end of the block loop to the end of the body of the outer
    loop.  The statistics are printed, which is not modelled, but their
    last argument divides by the elapsed seconds. *)
Definition flush (w : World) (s : Run_state) : outcome Run_state :=
  let a := this s in
  let db := (flush_chains w a).1 in
  let sum :=
    foldl (fun sum kv => sum + Z.of_nat (length (merkleDag.HashList (MD kv.2))))
          0 (visited w a) in
  let total := total s + sum in
  let secs := elapsed_secs w in
  _ ← int64_div total secs;
  directoryBlock ← directoryBlock w a;
  let db := node.Put GetHash Marshal db directoryBlock in
  let mdFeed := mdFeed a ++ [node.GetMDRoot directoryBlock] in
  Ok (mkRun (mkAccumulator db (chainID a) (height a) ∅ mdFeed (previous a))
            total (directory s ++ [directoryBlock])).

(** One pass through the [select]; when it breaks out of the block loop,
    the flush follows and the outer loop goes round again.  The outer
    [for] has no condition, and nothing in its body leaves it. *)
Definition Run_step (s : Run_state) (t : World * event)
  : outcome (ctrl Run_state) :=
  match block_select (this s) t.2 with
  | Continue a => Ok (Continue (mkRun a (total s) (directory s)))
  | Break a =>
      s ← flush t.1 (mkRun a (total s) (directory s));
      Ok (Continue s)
  end.

(** [Run] along a schedule: what each [select] receives, and the world at
    that moment.  The result is [Continue] while [Run] is still in its
    loop, [Break] once it has returned. *)
Fixpoint Run_events (ts : list (World * event)) (s : Run_state)
  : outcome (ctrl Run_state) :=
  match ts with
  | [] => Ok (Continue s)
  | t :: ts' =>
      match Run_step s t with
      | Ok (Continue s') => Run_events ts' s'
      | r => r
      end
  end.

(** [Run()] on entry: [total] is zero, nothing has been written. *)
Definition Run_start (a : Accumulator) : Run_state := mkRun a 0 [].

(** *** One block

    The block loop alone, along the cases its [select] takes: [Continue]
    while the block is still open, [Break] at [break block]. *)
Fixpoint block_loop (evs : list event) (a : Accumulator) : ctrl Accumulator :=
  match evs with
  | [] => Continue a
  | ev :: evs' =>
      match block_select a ev with
      | Continue a' => block_loop evs' a'
      | Break a' => Break a'
      end
  end.

(** The nodes that a flush puts, in the order of the calls. *)
Definition flush_puts (w : World) (a : Accumulator) : list node.Node :=
  ((fun kv => leaf_node kv.2) <$> visited w a) ++
  match directoryBlock w a with
  | Ok d => [d]
  | Panic _ => []
  end.

(** No two of the nodes share a digest without sharing their bytes. *)
Definition collision_free (ns : list node.Node) : Prop :=
  forall n1 n2, n1 ∈ ns -> n2 ∈ ns ->
    GetHash n1 = GetHash n2 -> Marshal n1 = Marshal n2.

End Coordinator.

(** The entries among the cases of a block, in the order of arrival. *)
Definition entries_of (evs : list event) : list node.EntryHash :=
  omap (fun ev => match ev with RecvEntry entry => Some entry | _ => None end)
       evs.

(** The entry hashes that arrived for chain [c], in the order of arrival. *)
Definition leaves_of (c : types.Hash) (es : list node.EntryHash)
  : list types.Hash :=
  node.EH_EntryHash <$> filter (fun e => node.EH_ChainID e = c) es.

(** Whether a case of the [select] reaches [break block]. *)
Definition ends_block (ev : event) : bool :=
  match ev with
  | RecvControl m => received m
  | _ => false
  end.

(** The number of blocks that a schedule closes. *)
Definition blocks_closed (ts : list (World * event)) : nat :=
  length (List.filter (fun t => ends_block t.2) ts).

(** The statistic [sum] of the flush: the leaves of the chains visited. *)
Definition entries_in_block (vs : list (types.Hash * ChainAcc)) : Z :=
  foldl (fun sum kv => sum + Z.of_nat (length (merkleDag.HashList (MD kv.2))))
        0 vs.

End accumulator.

Import accumulator.

(** ** A small instance

    Concrete parameters on which the definitions run: the digest of two
    hashes is their concatenation, a node is serialized as its height and
    kind followed by its chain id and root, and the digest of a node is its
    serialization. *)
Module Scenario.

Definition HashIt (a b : types.Hash) : types.Hash := a ++ b.

Definition byte_of_Z (z : Z) : byte :=
  default Byte.x00 (Byte.of_N (Z.to_N (z mod 256))).

Definition Marshal (n : node.Node) : list byte :=
  byte_of_Z (node.BHeight n)
  :: (if node.IsNode n then Byte.x01 else Byte.x00)
  :: node.ChainID n ++ node.ListMDRoot n ++ concat (node.EntryList n).

Definition GetHash (n : node.Node) : types.Hash := Marshal n.

Definition Unmarshal (data : list byte) : option (list byte * node.Node) :=
  match data with
  | h :: k :: rest =>
      Some ([], node.mkNode 0 (take 32 rest) (Z.of_N (Byte.to_N h)) 0 0
                  types.Hash_zero (bool_decide (k = Byte.x01))
                  (drop 32 rest) [])
  | _ => None
  end.

Definition Version : types.VersionField := 1.

(** A world in which [range] visits the map in its stored order, one second
    after the start. *)
Definition world : World := mkWorld (fun l => l) 1 1000.

(** Chain ids and entry hashes, one byte each. *)
Definition Chain1 : types.Hash := [Byte.x01].
Definition Chain2 : types.Hash := [Byte.x02].
Definition E1 : types.Hash := [Byte.xe1].
Definition E2 : types.Hash := [Byte.xe2].
Definition F1 : types.Hash := [Byte.xf1].

Definition entry (c e : types.Hash) : event :=
  RecvEntry (node.mkEntryHash c e).

Definition end_block : World * event := (world, RecvControl (Sent true)).

(** A store that holds one directory block, of height 0, and its head. *)
Definition head_node : node.Node :=
  node.mkNode 0 types.Hash_zero 0 0 0 types.Hash_zero true types.Hash_zero [].

Definition store : database.DB :=
  database.Put
    (database.Put ∅ types.Node (GetHash head_node) (Marshal head_node))
    types.NodeHead types.Hash_zero (GetHash head_node).

(** The accumulator that [Init] sets up on that store: [previous] is the
    head, the height is 1. *)
Definition restarted : Accumulator :=
  mkAccumulator store types.Hash_zero 1 ∅ [] (Some head_node).

(** The accumulator that [Init] sets up on the empty store. *)
Definition fresh : Accumulator :=
  mkAccumulator ∅ types.Hash_zero 0 ∅ [] None.

(** The state of [Run], started on [a], after the schedule [ts]. *)
Definition run (ts : list (World * event)) (a : Accumulator) : Run_state :=
  match Run_events HashIt GetHash Marshal Version ts (Run_start a) with
  | Ok (Continue s) => s
  | _ => Run_start a
  end.

(** The coordinator after the cases [evs] of an open block. *)
Definition block (evs : list event) (a : Accumulator) : Accumulator :=
  match block_loop HashIt evs a with
  | Continue a' => a'
  | Break a' => a'
  end.

(** Two chains, their entries interleaved. *)
Definition interleaved : list event :=
  [entry Chain2 F1; entry Chain1 E1; entry Chain1 E2].

(** A world in which the flush comes within the second in which [Run]
    started. *)
Definition world_same_second : World := mkWorld (fun l => l) 0 1000.

(** A world in which [range] visits the map in the reverse of its stored
    order. *)
Definition world_reversed : World := mkWorld (@rev _) 1 2000.

(** The same entries as [interleaved], between idle passes and a [false]
    on the control channel. *)
Definition interleaved_idle : list event :=
  [NothingReady; entry Chain2 F1; RecvControl (Sent false); entry Chain1 E1;
   RecvControl Closed; entry Chain1 E2; NothingReady].

End Scenario.


(** * Properties *)

(** ** [bytes.Compare] is a strict total order *)

Lemma Byte_to_N_inj (x y : byte) : Byte.to_N x = Byte.to_N y -> x = y.
Proof.
  intros E. apply (f_equal Byte.of_N) in E.
  rewrite !Byte.of_to_N in E. by injection E.
Qed.

Lemma bytes_Compare_refl (a : list byte) : bytes_Compare a a = 0.
Proof.
  induction a as [|x a IH]; simpl; [done|].
  by rewrite N.compare_refl.
Qed.

Lemma bytes_Compare_eq (a b : list byte) : bytes_Compare a b = 0 -> a = b.
Proof.
  revert b. induction a as [|x a IH]; intros [|y b]; simpl; try done.
  destruct (N.compare_spec (Byte.to_N x) (Byte.to_N y)) as [E| |]; try done.
  intros Hab. f_equal; [by apply Byte_to_N_inj | by apply IH].
Qed.

Lemma bytes_Compare_total (a b : list byte) :
  a ≠ b -> bytes_Compare a b < 0 \/ bytes_Compare b a < 0.
Proof.
  revert b. induction a as [|x a IH]; intros [|y b] Hne; simpl;
    try done; try (left; lia); try (right; lia).
  rewrite (N.compare_antisym (Byte.to_N x) (Byte.to_N y)).
  destruct (N.compare_spec (Byte.to_N x) (Byte.to_N y)) as [E| |]; simpl;
    try (left; lia); try (right; lia).
  apply IH. intros ->. apply Hne. f_equal. by apply Byte_to_N_inj.
Qed.

Lemma bytes_Compare_trans (a b c : list byte) :
  bytes_Compare a b < 0 -> bytes_Compare b c < 0 -> bytes_Compare a c < 0.
Proof.
  revert b c. induction a as [|x a IH]; intros [|y b] [|z c]; simpl;
    try lia.
  destruct (N.compare_spec (Byte.to_N x) (Byte.to_N y)) as [Exy|Lxy|Gxy];
    destruct (N.compare_spec (Byte.to_N y) (Byte.to_N z)) as [Eyz|Lyz|Gyz];
    try lia; intros Hab Hbc.
  - rewrite Exy, Eyz, N.compare_refl. by apply (IH b).
  - rewrite Exy. by apply N.compare_lt_iff in Lyz as ->.
  - rewrite <- Eyz. by apply N.compare_lt_iff in Lxy as ->.
  - assert (Byte.to_N x < Byte.to_N z)%N as Lxz by lia.
    by apply N.compare_lt_iff in Lxz as ->.
Qed.

Lemma bytes_Compare_asym (a b : list byte) :
  bytes_Compare a b < 0 -> ~ bytes_Compare b a < 0.
Proof.
  intros Hab Hba.
  pose proof (bytes_Compare_trans _ _ _ Hab Hba) as Haa.
  rewrite bytes_Compare_refl in Haa. lia.
Qed.

Lemma chainEntries_less_lt x y : chainEntries_less x y = true <-> chain_lt x y.
Proof. unfold chainEntries_less, chain_lt. apply Z.ltb_lt. Qed.

(** ** [sort.Slice] sorts *)

Lemma insert_left_Permutation {A} (less : A -> A -> bool) x l :
  insert_left less x l ≡ₚ x :: l.
Proof.
  induction l as [|y l IH]; simpl; [done|].
  destruct (less x y); [|done].
  rewrite IH. apply Permutation_swap.
Qed.

Lemma sort_Slice_Permutation {A} (less : A -> A -> bool) data :
  sort_Slice less data ≡ₚ data.
Proof.
  unfold sort_Slice. rewrite <- Permutation_rev.
  assert (forall acc,
    foldl (fun rprefix x => insert_left less x rprefix) acc data
      ≡ₚ acc ++ data) as H.
  { induction data as [|x data IH]; intros acc; simpl.
    - by rewrite app_nil_r.
    - rewrite IH, insert_left_Permutation. apply Permutation_middle. }
  apply (H []).
Qed.

Lemma insert_left_sorted x l :
  StronglySorted (flip chain_lt) l ->
  node.NE_ChainID x ∉ node.NE_ChainID <$> l ->
  StronglySorted (flip chain_lt) (insert_left chainEntries_less x l).
Proof.
  induction 1 as [|y l Hl IH Hy]; intros Hx; simpl.
  { repeat constructor. }
  rewrite fmap_cons, not_elem_of_cons in Hx. destruct Hx as [Hxy Hx].
  destruct (chainEntries_less x y) eqn:E.
  - apply chainEntries_less_lt in E.
    constructor; [by apply IH|].
    rewrite insert_left_Permutation. by constructor.
  - assert (chain_lt y x) as Hyx.
    { destruct (bytes_Compare_total _ _ Hxy) as [H|H]; [|done].
      apply chainEntries_less_lt in H. congruence. }
    constructor; [by constructor|].
    constructor; [done|].
    eapply Forall_impl; [exact Hy|]. intros z Hz.
    unfold flip, chain_lt in *. by eapply bytes_Compare_trans.
Qed.

Lemma StronglySorted_rev {A} (R : relation A) l :
  StronglySorted (flip R) l -> StronglySorted R (rev l).
Proof.
  induction 1 as [|x l Hl IH Hx]; simpl; [constructor|].
  apply StronglySorted_app. split_and!; [|done|repeat constructor].
  intros x1 x2 Hx1 Hx2. apply list_elem_of_singleton in Hx2 as ->.
  rewrite Forall_forall in Hx. apply Hx.
  by apply list_elem_of_In, in_rev, list_elem_of_In.
Qed.

(** With pairwise distinct chain ids the result is strictly ascending. *)
Lemma sort_Slice_sorted data :
  NoDup (node.NE_ChainID <$> data) ->
  StronglySorted chain_lt (sort_Slice chainEntries_less data).
Proof.
  intros Hnd. apply StronglySorted_rev.
  assert (forall acc,
    StronglySorted (flip chain_lt) acc ->
    NoDup (node.NE_ChainID <$> (acc ++ data)) ->
    StronglySorted (flip chain_lt)
      (foldl (fun rprefix x => insert_left chainEntries_less x rprefix)
             acc data)) as H.
  { clear Hnd. induction data as [|x data IH]; intros acc Hacc Hnd; simpl.
    { done. }
    assert (acc ++ x :: data ≡ₚ x :: acc ++ data) as E
      by (by rewrite Permutation_middle).
    rewrite E, fmap_cons, NoDup_cons, fmap_app in Hnd.
    destruct Hnd as [Hx Hnd]. apply IH.
    - apply insert_left_sorted; [done|].
      intros Hin. apply Hx, elem_of_app. by left.
    - rewrite insert_left_Permutation, fmap_app, fmap_cons.
      simpl. by apply NoDup_cons. }
  apply H; [constructor|done].
Qed.

(** A strictly ascending arrangement of lines with distinct chain ids is
    unique: any sorting algorithm returns what [sort_Slice] returns. *)
Lemma chain_lt_sorted_unique l1 l2 :
  StronglySorted chain_lt l1 -> StronglySorted chain_lt l2 ->
  l1 ≡ₚ l2 -> l1 = l2.
Proof.
  apply StronglySorted_unique_strong.
  intros x1 x2 _ _ H12 H21. by destruct (bytes_Compare_asym _ _ H12).
Qed.

(** Whatever algorithm [sort.Slice] runs, this is its result. *)
Lemma sort_Slice_canonical data sorted :
  NoDup (node.NE_ChainID <$> data) ->
  StronglySorted chain_lt sorted ->
  sorted ≡ₚ data ->
  sorted = sort_Slice chainEntries_less data.
Proof.
  intros Hnd Hsorted Hperm. apply chain_lt_sorted_unique; [done| |].
  - by apply sort_Slice_sorted.
  - by rewrite sort_Slice_Permutation.
Qed.

(** ** The MD on three leaves *)

Example MD_three_leaves HashIt (e1 e2 e3 : types.Hash) :
  merkleDag.GetMDRoot HashIt (merkleDag.of_list HashIt [e1; e2; e3])
  = HashIt (HashIt e1 e2) e3 /\
  merkleDag.GetMDRoot HashIt (merkleDag.of_list HashIt [e1]) = e1 /\
  merkleDag.GetMDRoot HashIt (merkleDag.of_list HashIt []) = types.Hash_zero.
Proof. done. Qed.

(** ** The coordinator *)

Section Coordinator_properties.

Variable HashIt : types.Hash -> types.Hash -> types.Hash.
Variable GetHash : node.Node -> types.Hash.
Variable Marshal : node.Node -> list byte.
Variable Unmarshal : list byte -> option (list byte * node.Node).
Variable Version : types.VersionField.

Local Abbreviation Run_events := (Run_events HashIt GetHash Marshal Version).
Local Abbreviation Run_step := (Run_step HashIt GetHash Marshal Version).
Local Abbreviation flush := (flush HashIt GetHash Marshal Version).
Local Abbreviation directoryBlock :=
  (directoryBlock HashIt GetHash Marshal Version).
Local Abbreviation block_select := (block_select HashIt).
Local Abbreviation block_loop := (block_loop HashIt).
Local Abbreviation Init := (Init Unmarshal).

(** *** The directory block *)

(** The guard of the directory block reads a [SequenceNum] that nothing has
    assigned yet. *)
Lemma directoryBlock_guard (a : Accumulator) :
  node.SequenceNum
    (node.set_BHeight (height a)
       (node.set_ChainID (chainID a)
          (node.set_Version Version node.zero))) = 0.
Proof. reflexivity. Qed.

Lemma directoryBlock_Ok w a :
  directoryBlock w a =
  Ok (node.mkNode Version (chainID a) (height a) (height a) (now_nanos w)
        types.Hash_zero true
        (merkleDag.GetMDRoot HashIt (MDAcc HashIt GetHash Marshal w a)) []).
Proof. reflexivity. Qed.

(** *** The flush *)

Lemma flush_Ok w s :
  elapsed_secs w ≠ 0 ->
  exists db d,
    directoryBlock w (this s) = Ok d /\
    flush w s =
    Ok (mkRun (mkAccumulator db (chainID (this s)) (height (this s)) ∅
                 (mdFeed (this s) ++ [node.ListMDRoot d])
                 (previous (this s)))
              (total s +
               foldl (fun sum kv =>
                        sum + Z.of_nat (length (merkleDag.HashList (MD kv.2))))
                     0 (visited w (this s)))
              (directory s ++ [d])) /\
    db = node.Put GetHash Marshal
           (flush_chains HashIt GetHash Marshal w (this s)).1 d.
Proof.
  intros Hsecs. eexists _, _. split; [apply directoryBlock_Ok|].
  split; [|reflexivity].
  unfold accumulator.flush, int64_div.
  destruct (Z.eqb_spec (elapsed_secs w) 0) as [|_]; [done|].
  reflexivity.
Qed.

Lemma flush_inv w s s' :
  flush w s = Ok s' ->
  exists db d,
    directoryBlock w (this s) = Ok d /\
    this s' = mkAccumulator db (chainID (this s)) (height (this s)) ∅
                (mdFeed (this s) ++ [node.ListMDRoot d]) (previous (this s)) /\
    directory s' = directory s ++ [d] /\
    db = node.Put GetHash Marshal
           (flush_chains HashIt GetHash Marshal w (this s)).1 d.
Proof.
  intros H.
  destruct (Z.eq_dec (elapsed_secs w) 0) as [E|Hsecs].
  { unfold accumulator.flush, int64_div in H. rewrite E in H. done. }
  destruct (flush_Ok w s Hsecs) as (db & d & Hd & Hf & Hdb).
  rewrite Hf in H. injection H as <-. by exists db, d.
Qed.

Lemma flush_not_NilDereference w s : flush w s ≠ Panic NilDereference.
Proof.
  unfold accumulator.flush, int64_div.
  destruct (Z.eqb_spec (elapsed_secs w) 0); done.
Qed.

(** *** One pass through the loop *)

Lemma Run_step_inv s t r :
  Run_step s t = Ok r ->
  exists s', r = Continue s' /\
    ((exists a, block_select (this s) t.2 = Continue a /\
                s' = mkRun a (total s) (directory s)) \/
     (block_select (this s) t.2 = Break (this s) /\ flush t.1 s = Ok s')).
Proof.
  unfold accumulator.Run_step.
  destruct (block_select (this s) t.2) as [a|a] eqn:E.
  - intros [= <-]. eexists. split; [done|]. left. by exists a.
  - assert (a = this s) as ->.
    { destruct t as [w [m| |]]; simpl in E; try done.
      destruct (received m); congruence. }
    replace (mkRun (this s) (total s) (directory s)) with s
      by (by destruct s).
    destruct (flush t.1 s) as [s'|p] eqn:F; simpl; [|done].
    intros [= <-]. exists s'. split; [done|]. by right.
Qed.

Lemma block_select_frame a ev a' :
  block_select a ev = Continue a' ->
  DB a' = DB a /\ chainID a' = chainID a /\ height a' = height a /\
  mdFeed a' = mdFeed a /\ previous a' = previous a.
Proof.
  destruct ev as [m|entry|]; simpl.
  - destruct (received m); [done|]. by intros [= <-].
  - by intros [= <-].
  - by intros [= <-].
Qed.

(** *** Along a run *)

(** What no pass through the outer loop changes, and what every directory
    block of the run looks like. *)
Lemma Run_events_inv ts s s' :
  Run_events ts s = Ok (Continue s') ->
  height (this s') = height (this s) /\
  previous (this s') = previous (this s) /\
  chainID (this s') = chainID (this s) /\
  exists ds, directory s' = directory s ++ ds /\
    Forall (fun d => node.BHeight d = height (this s) /\
                     node.Previous d = types.Hash_zero) ds.
Proof.
  revert s. induction ts as [|t ts IH]; intros s; simpl.
  { intros [= <-]. do 3 (split; [done|]). exists []. by rewrite app_nil_r. }
  destruct (Run_step s t) as [[s1|s1]|p] eqn:E; try done.
  intros H. apply IH in H as (Hh & Hp & Hc & ds & Hds & Hall).
  apply Run_step_inv in E as (s1' & [= <-] & [(a & Hsel & ->)|[_ Hf]]).
  - apply block_select_frame in Hsel as (HDB & Hc' & Hh' & _ & Hp').
    simpl in *.
    do 3 (split; [congruence|]).
    exists ds. split; [done|].
    eapply Forall_impl; [exact Hall|]. simpl. intros d. by rewrite Hh'.
  - apply flush_inv in Hf as (db & d & Hd & Hthis & Hdir & ->).
    rewrite Hthis in *. simpl in *.
    do 3 (split; [done|]).
    exists (d :: ds). rewrite Hds, Hdir, <- app_assoc. split; [done|].
    constructor; [|done].
    rewrite directoryBlock_Ok in Hd. by injection Hd as <-.
Qed.

(** A block starts on an empty chain map: [Init] and every flush leave
    one. *)
Lemma Init_chains_empty a db id a' :
  Init a db id = Ok a' -> chains a' = ∅.
Proof.
  unfold accumulator.Init. simpl.
  destruct (database.Get db types.NodeHead id) as [headHash|];
    [|by intros [= <-]].
  destruct (database.Get db types.Node headHash) as [head|]; [|done].
  destruct (Unmarshal head) as [[rest headNode]|]; [|done].
  by intros [= <-].
Qed.

Lemma flush_chains_empty w s s' : flush w s = Ok s' -> chains (this s') = ∅.
Proof. intros H. by apply flush_inv in H as (db & d & _ & -> & _). Qed.

(** The cases of one block, closed by [true] on the control channel: [Run]
    goes through the block loop and then the flush. *)
Lemma Run_events_block ts w s a :
  block_loop ts.*2 (this s) = Continue a ->
  Run_events (ts ++ [(w, RecvControl (Sent true))]) s
  = (s' ← flush w (mkRun a (total s) (directory s)); Ok (Continue s')).
Proof.
  revert s. induction ts as [|t ts IH]; intros s; simpl.
  - intros [= <-]. unfold accumulator.Run_step. simpl.
    by destruct (flush w _) as [s'|p].
  - unfold accumulator.Run_step.
    destruct (block_select (this s) t.2) as [a1|a1]; [|done].
    intros H. by rewrite (IH (mkRun a1 (total s) (directory s)) H).
Qed.

(** [Run] has no way out of its loop. *)
Lemma Run_events_never_returns ts s s' : Run_events ts s ≠ Ok (Break s').
Proof.
  revert s. induction ts as [|t ts IH]; intros s; simpl; [done|].
  destruct (Run_step s t) as [[s1|s1]|p] eqn:E; [apply IH| |done].
  by apply Run_step_inv in E as (? & ? & _).
Qed.

Lemma Run_events_not_NilDereference ts s :
  Run_events ts s ≠ Panic NilDereference.
Proof.
  revert s. induction ts as [|t ts IH]; intros s; simpl; [done|].
  destruct (Run_step s t) as [[s1|s1]|p] eqn:E; [apply IH|done|].
  intros [= ->]. unfold accumulator.Run_step in E.
  destruct (block_select (this s) t.2) as [a|a]; [done|].
  destruct (flush t.1 _) as [?|p] eqn:F; simpl in E; [done|].
  injection E as ->. by apply flush_not_NilDereference in F.
Qed.

(** *** Chaining, head and height along a run *)

(** C1, as the code has it: every directory block that [Run] writes carries
    the zero digest in [Previous], whatever [a.previous] holds, and so also
    after a restart on a store with a head and after earlier flushes.  The
    guard [directoryBlock.SequenceNum > 0] is evaluated before
    [SequenceNum] is assigned, so the assignment of
    [a.previous.GetHash()] is never reached. *)
Theorem Run_directory_Previous_zero ts a s' :
  Run_events ts (Run_start a) = Ok (Continue s') ->
  Forall (fun d => node.Previous d = types.Hash_zero) (directory s').
Proof.
  intros H. apply Run_events_inv in H as (_ & _ & _ & ds & -> & Hall).
  simpl. eapply Forall_impl; [exact Hall|]. by intros d [_ ?].
Qed.

(** C2, as the code has it: [Run] never assigns [a.previous].  Along a
    run, flushes included, the coordinator holds in [previous] the node (or
    [nil]) that [Init] left there; it does not retain the directory block
    that a flush has just written. *)
Theorem Run_previous_not_retained ts a s' :
  Run_events ts (Run_start a) = Ok (Continue s') ->
  previous (this s') = previous a.
Proof.
  intros H. by apply Run_events_inv in H as (_ & ? & _).
Qed.

(** C3, as the code has it: [a.height] is not incremented at the end of a
    flush, so the height of the coordinator stays what [Init] set and every
    directory block of the run carries that same [BHeight]. *)
Theorem Run_height_constant ts a s' :
  Run_events ts (Run_start a) = Ok (Continue s') ->
  height (this s') = height a /\
  Forall (fun d => node.BHeight d = height a) (directory s').
Proof.
  intros H. apply Run_events_inv in H as (? & _ & _ & ds & -> & Hall).
  split; [done|]. simpl. eapply Forall_impl; [exact Hall|]. by intros d [? _].
Qed.

(** C10: when [Init] found no head, so that [a.previous] is [nil], no flush
    of the run dereferences it.  The guard of the directory block reads
    [SequenceNum] while it still holds its zero value, so the branch that
    reads [a.previous.GetHash()] is not taken, and the run never stops with
    a nil-pointer fault. *)
Theorem Run_never_dereferences_nil_previous ts a :
  previous a = None ->
  node.SequenceNum
    (node.set_BHeight (height a)
       (node.set_ChainID (chainID a)
          (node.set_Version Version node.zero))) = 0 /\
  (forall w s, this s = a -> flush w s ≠ Panic NilDereference) /\
  Run_events ts (Run_start a) ≠ Panic NilDereference.
Proof.
  intros _. split_and!.
  - apply directoryBlock_guard.
  - intros w s _. apply flush_not_NilDereference.
  - apply Run_events_not_NilDereference.
Qed.

(** *** The control channel *)

(** C8: in the block loop, [true] on the control channel breaks out of the
    block, and the flush follows; [false] is ignored: the loop goes on with
    the same state, the chains and their entries included, and nothing is
    flushed. *)
Theorem control_true_ends_block_false_ignored w s :
  block_select (this s) (RecvControl (Sent true)) = Break (this s) /\
  Run_step s (w, RecvControl (Sent true))
    = (s' ← flush w s; Ok (Continue s')) /\
  block_select (this s) (RecvControl (Sent false)) = Continue (this s) /\
  Run_step s (w, RecvControl (Sent false)) = Ok (Continue s).
Proof. by destruct s. Qed.

(** C9, amended: closing the control channel does not stop the
    coordinator.  A receive on the closed channel yields [false], which the
    block loop ignores like any other [false]: the state is unchanged,
    nothing is flushed, the run goes on as if nothing had been received,
    and [Run] never returns. *)
Theorem closed_control_is_ignored w s ts :
  Run_step s (w, RecvControl Closed) = Ok (Continue s) /\
  Run_events ((w, RecvControl Closed) :: ts) s = Run_events ts s /\
  forall s', Run_events ((w, RecvControl Closed) :: ts) s ≠ Ok (Break s').
Proof.
  split_and!; [by destruct s|by destruct s|].
  intros s'. apply Run_events_never_returns.
Qed.

(** *** [Init] *)

(** C6: on a store whose [NodeHead] cell names a node that decodes, [Init]
    retains that node as [previous] and sets the height to its [BHeight]
    plus one (the addition of the height type; it is the integer successor
    below the top of the range).  On a store without a head, [Init] on a
    new accumulator leaves [previous] unset and the height 0. *)
Theorem Init_head_or_cold_start db id :
  (forall a headHash head rest headNode,
     database.Get db types.NodeHead id = Some headHash ->
     database.Get db types.Node headHash = Some head ->
     Unmarshal head = Some (rest, headNode) ->
     exists a', Init a db id = Ok a' /\
       previous a' = Some headNode /\
       height a' = types.BlockHeight_succ (node.BHeight headNode) /\
       (0 <= node.BHeight headNode < types.BlockHeight_modulus - 1 ->
        height a' = node.BHeight headNode + 1)) /\
  (database.Get db types.NodeHead id = None ->
     exists a', Init Accumulator_zero db id = Ok a' /\
       previous a' = None /\ height a' = 0).
Proof.
  split.
  - intros a headHash head rest headNode Hhead Hnode Hdec.
    unfold accumulator.Init. simpl. rewrite Hhead, Hnode, Hdec. simpl.
    eexists. split; [done|]. simpl. split_and!; try done.
    intros Hrange. unfold types.BlockHeight_succ.
    apply Z.mod_small. lia.
  - intros Hhead. unfold accumulator.Init. simpl. rewrite Hhead. simpl.
    by eexists.
Qed.


(** *** The first loop of the flush *)

Local Abbreviation chain_entry :=
  (fun kv : types.Hash * ChainAcc =>
     node.mkNEList (node.ChainID (Node kv.2))
                   (merkleDag.GetMDRoot HashIt (MD kv.2))).

Lemma flush_chain_entries vs st :
  (foldl (flush_chain HashIt GetHash Marshal) st vs).2
  = st.2 ++ (chain_entry <$> vs).
Proof.
  revert st. induction vs as [|kv vs IH]; intros st; simpl.
  - by rewrite app_nil_r.
  - rewrite IH. simpl. by rewrite <- app_assoc.
Qed.

Lemma flush_chain_DB vs st :
  (foldl (flush_chain HashIt GetHash Marshal) st vs).1
  = foldl (node.Put GetHash Marshal) st.1
          ((fun kv => leaf_node HashIt kv.2) <$> vs).
Proof.
  revert st. induction vs as [|kv vs IH]; intros st; simpl; [done|].
  by rewrite IH.
Qed.

Lemma sorted_chainEntries_Permutation w a :
  sorted_chainEntries HashIt GetHash Marshal w a
  ≡ₚ chain_entry <$> visited w a.
Proof.
  unfold sorted_chainEntries, flush_chains.
  by rewrite sort_Slice_Permutation, flush_chain_entries.
Qed.

Lemma elem_of_visited w a k v :
  range_ok w -> (k, v) ∈ visited w a <-> chains a !! k = Some v.
Proof.
  intros Hw. unfold visited. rewrite (Hw _). apply elem_of_map_to_list.
Qed.

(** *** The MD *)

Lemma HashList_foldl_AddToChain md hs :
  merkleDag.HashList (foldl (merkleDag.AddToChain HashIt) md hs)
  = merkleDag.HashList md ++ hs.
Proof.
  revert md. induction hs as [|h hs IH]; intros md; simpl.
  - by rewrite app_nil_r.
  - rewrite IH. simpl. by rewrite <- app_assoc.
Qed.

Lemma MDAcc_of_list w a :
  MDAcc HashIt GetHash Marshal w a
  = merkleDag.of_list HashIt
      (node.NE_MDRoot <$> sorted_chainEntries HashIt GetHash Marshal w a).
Proof.
  unfold MDAcc, merkleDag.of_list.
  generalize merkleDag.empty.
  induction (sorted_chainEntries HashIt GetHash Marshal w a) as [|x l IH];
    intros md; simpl; [done|]. apply IH.
Qed.

(** *** The chains of a block *)

Local Abbreviation fresh_chain :=
  (fun (c : types.Hash) (h : types.BlockHeight) =>
     mkChainAcc (node.set_BHeight h (node.set_ChainID c node.zero))
                merkleDag.empty).

Local Abbreviation feed :=
  (fun (v : ChainAcc) (hs : list types.Hash) =>
     mkChainAcc (Node v) (foldl (merkleDag.AddToChain HashIt) (MD v) hs)).

Lemma leaves_of_cons c e es :
  leaves_of c (e :: es)
  = if decide (node.EH_ChainID e = c)
    then node.EH_EntryHash e :: leaves_of c es
    else leaves_of c es.
Proof.
  unfold leaves_of. rewrite filter_cons. by case_decide.
Qed.

Lemma leaves_of_nil_iff c es :
  leaves_of c es = [] <-> c ∉ node.EH_ChainID <$> es.
Proof.
  induction es as [|e es IH].
  - split; [|done]. intros _. apply not_elem_of_nil.
  - rewrite leaves_of_cons, fmap_cons, not_elem_of_cons.
    case_decide as E.
    + split; [done|]. by intros [? _].
    + rewrite IH. split; [by intros ?; split|by intros [_ ?]].
Qed.

(** What the block loop leaves in the chain map: a chain without entries
    in the block is as it was; a chain with entries is the chain that was
    there, or else a new one, fed with its entries in the order of
    arrival.  Nothing else of the coordinator changes. *)
Lemma block_loop_chains evs a0 a :
  block_loop evs a0 = Continue a ->
  (DB a = DB a0 /\ chainID a = chainID a0 /\ height a = height a0 /\
   mdFeed a = mdFeed a0 /\ previous a = previous a0) /\
  forall c,
    chains a !! c =
    match leaves_of c (entries_of evs) with
    | [] => chains a0 !! c
    | (_ :: _) as hs =>
        Some (feed (default (fresh_chain c (height a0)) (chains a0 !! c)) hs)
    end.
Proof.
  revert a0. induction evs as [|ev evs IH]; intros a0; simpl.
  { by intros [= <-]. }
  destruct (block_select a0 ev) as [a1|a1] eqn:E; [|done].
  intros H. apply IH in H as [Hframe Hchains].
  pose proof (block_select_frame _ _ _ E) as (HDB & Hc' & Hh' & Hm' & Hp').
  destruct Hframe as (F1 & F2 & F3 & F4 & F5).
  split. { split_and!; congruence. }
  intros c. rewrite Hchains, Hh'. clear Hchains IH.
  destruct ev as [m|entry|]; simpl in E.
  - destruct (received m); [done|]. by injection E as <-.
  - injection E as <-. simpl. rewrite leaves_of_cons.
    case_decide as Hc; [subst c|].
    + rewrite lookup_insert_eq.
      destruct (chains a0 !! node.EH_ChainID entry) as [v|];
        by destruct (leaves_of _ _).

    + by rewrite lookup_insert_ne.
  - by injection E as <-.
Qed.

(** From an empty map: exactly the chains that received an entry, each
    keyed by its own chain id and holding its entries as they arrived. *)
Lemma block_loop_from_empty evs a0 a c :
  chains a0 = ∅ ->
  block_loop evs a0 = Continue a ->
  chains a !! c =
    match leaves_of c (entries_of evs) with
    | [] => None
    | (_ :: _) as hs => Some (feed (fresh_chain c (height a0)) hs)
    end.
Proof.
  intros Hempty H. apply block_loop_chains in H as [_ H].
  rewrite H, Hempty, lookup_empty. done.
Qed.

Lemma block_loop_keyed evs a0 a k v :
  chains a0 = ∅ ->
  block_loop evs a0 = Continue a ->
  chains a !! k = Some v ->
  k ∈ node.EH_ChainID <$> entries_of evs /\
  node.ChainID (Node v) = k /\
  node.BHeight (Node v) = height a0 /\
  MD v = merkleDag.of_list HashIt (leaves_of k (entries_of evs)) /\
  merkleDag.HashList (MD v) = leaves_of k (entries_of evs).
Proof.
  intros Hempty H Hkv.
  rewrite (block_loop_from_empty _ _ _ k Hempty H) in Hkv.
  destruct (leaves_of k (entries_of evs)) as [|h hs] eqn:El; [done|].
  injection Hkv as <-. split_and!; try done.
  - destruct (decide (k ∈ node.EH_ChainID <$> entries_of evs)) as [|Hn];
      [done|]. apply leaves_of_nil_iff in Hn. congruence.
  - simpl. by rewrite HashList_foldl_AddToChain.
Qed.

(** *** The lines of the directory *)

Lemma chainEntries_keys w a :
  range_ok w ->
  (forall k v, chains a !! k = Some v -> node.ChainID (Node v) = k) ->
  node.NE_ChainID <$> (chain_entry <$> visited w a) = (visited w a).*1.
Proof.
  intros Hw Hkeyed. rewrite <- list_fmap_compose.
  apply Forall_fmap_ext, Forall_forall. intros [k v] Hin.
  apply elem_of_visited in Hin; [|done]. simpl. by apply Hkeyed.
Qed.

Lemma NoDup_visited_keys w a : range_ok w -> NoDup (visited w a).*1.
Proof.
  intros Hw. unfold visited. rewrite (Hw _). apply NoDup_fst_map_to_list.
Qed.

Lemma elem_of_visited_keys w a c :
  range_ok w -> c ∈ (visited w a).*1 <-> is_Some (chains a !! c).
Proof.
  intros Hw. rewrite list_elem_of_fmap. split.
  - intros ([k v] & -> & Hin). apply elem_of_visited in Hin; [|done].
    by exists v.
  - intros [v Hv]. exists (c, v). split; [done|]. by apply elem_of_visited.
Qed.

(** *** What the flush leaves in the store *)

Lemma Get_foldl_Put ns db n :
  collision_free GetHash Marshal ns ->
  n ∈ ns ->
  database.Get (foldl (node.Put GetHash Marshal) db ns)
               types.Node (GetHash n) = Some (Marshal n).
Proof.
  induction ns as [|x ns IH] using rev_ind; intros Hcf Hin.
  { by apply elem_of_nil in Hin. }
  rewrite foldl_app. simpl. unfold node.Put at 1, database.Put, database.Get.
  destruct (decide (GetHash x = GetHash n)) as [E|Hne].
  - rewrite E, lookup_insert_eq. f_equal.
    apply Hcf; [|done..]. apply elem_of_app. right. by left.
  - rewrite lookup_insert_ne by congruence. apply IH.
    + intros n1 n2 H1 H2. apply Hcf; apply elem_of_app; by left.
    + apply elem_of_app in Hin as [?|Hin]; [done|].
      apply list_elem_of_singleton in Hin. congruence.
Qed.

Lemma flush_DB w s s' :
  flush w s = Ok s' ->
  DB (this s') =
  foldl (node.Put GetHash Marshal) (DB (this s)) (flush_puts HashIt GetHash
    Marshal Version w (this s)).
Proof.
  intros H. apply flush_inv in H as (db & d & Hd & -> & _ & ->). simpl.
  unfold flush_puts. rewrite Hd, foldl_app. simpl.
  unfold flush_chains. by rewrite flush_chain_DB.
Qed.

(** *** The directory: order and content *)

(** C4: at the flush that closes a block, the lines from which the
    directory MD is built are strictly ascending by chain id in byte order;
    a chain id occurs among them exactly when an entry for it arrived in
    the block, and then once; each line carries the MD root of its chain;
    and [ListMDRoot] of the directory block is the root of the MD fed with
    the roots of the lines in that order.  This holds for every order in
    which [range] visits the chain map. *)
Theorem directory_lines_sorted_once w a0 evs a :
  range_ok w ->
  chains a0 = ∅ ->
  block_loop evs a0 = Continue a ->
  let lines := sorted_chainEntries HashIt GetHash Marshal w a in
  StronglySorted chain_lt lines /\
  NoDup (node.NE_ChainID <$> lines) /\
  (forall c, c ∈ node.NE_ChainID <$> lines <->
             c ∈ node.EH_ChainID <$> entries_of evs) /\
  (forall ne, ne ∈ lines ->
     exists v, chains a !! node.NE_ChainID ne = Some v /\
               node.NE_MDRoot ne = merkleDag.GetMDRoot HashIt (MD v)) /\
  exists d, directoryBlock w a = Ok d /\
    node.ListMDRoot d =
    merkleDag.GetMDRoot HashIt
      (merkleDag.of_list HashIt (node.NE_MDRoot <$> lines)).
Proof.
  intros Hw Hempty Hloop lines.
  assert (forall k v, chains a !! k = Some v -> node.ChainID (Node v) = k)
    as Hkeyed.
  { intros k v Hkv. by eapply block_loop_keyed. }
  assert (node.NE_ChainID <$> lines ≡ₚ (visited w a).*1) as Hkeys.
  { unfold lines. rewrite sorted_chainEntries_Permutation.
    by rewrite chainEntries_keys. }
  assert (NoDup (node.NE_ChainID <$> lines)) as Hnd.
  { rewrite Hkeys. by apply NoDup_visited_keys. }
  split_and!.
  - unfold lines, sorted_chainEntries. apply sort_Slice_sorted.
    unfold flush_chains. rewrite flush_chain_entries. simpl.
    rewrite chainEntries_keys by done. by apply NoDup_visited_keys.
  - done.
  - intros c. rewrite Hkeys, elem_of_visited_keys by done. split.
    + intros [v Hv]. by eapply block_loop_keyed.
    + intros Hc. rewrite (block_loop_from_empty _ _ _ c Hempty Hloop).
      destruct (leaves_of c (entries_of evs)) eqn:El; [|by eexists].
      by apply leaves_of_nil_iff in El.
  - intros ne Hne. unfold lines in Hne.
    rewrite sorted_chainEntries_Permutation in Hne.
    apply list_elem_of_fmap in Hne as ([k v] & -> & Hin).
    apply elem_of_visited in Hin; [|done]. simpl.
    exists v. by rewrite (Hkeyed _ _ Hin).
  - eexists. split; [apply directoryBlock_Ok|]. simpl.
    by rewrite MDAcc_of_list.
Qed.

(** C5: the directory MD takes in the MD roots of the sorted lines and
    nothing else.  Two flushes whose sorted lines carry the same sequence
    of roots, whatever the chain ids on those lines, write directory blocks
    with the same [ListMDRoot] and publish the same root on [mdFeed]. *)
Theorem directory_root_from_md_roots_only w1 s1 w2 s2 :
  elapsed_secs w1 ≠ 0 ->
  elapsed_secs w2 ≠ 0 ->
  node.NE_MDRoot <$> sorted_chainEntries HashIt GetHash Marshal w1 (this s1)
  = node.NE_MDRoot <$> sorted_chainEntries HashIt GetHash Marshal w2 (this s2)
  ->
  exists s1' s2' d1 d2,
    flush w1 s1 = Ok s1' /\ flush w2 s2 = Ok s2' /\
    directory s1' = directory s1 ++ [d1] /\
    directory s2' = directory s2 ++ [d2] /\
    node.ListMDRoot d1 =
      merkleDag.GetMDRoot HashIt
        (merkleDag.of_list HashIt
           (node.NE_MDRoot <$>
              sorted_chainEntries HashIt GetHash Marshal w1 (this s1))) /\
    node.ListMDRoot d1 = node.ListMDRoot d2 /\
    mdFeed (this s1') = mdFeed (this s1) ++ [node.ListMDRoot d1] /\
    mdFeed (this s2') = mdFeed (this s2) ++ [node.ListMDRoot d2].
Proof.
  intros H1 H2 Hroots.
  destruct (flush_Ok w1 s1 H1) as (db1 & d1 & Hd1 & Hf1 & _).
  destruct (flush_Ok w2 s2 H2) as (db2 & d2 & Hd2 & Hf2 & _).
  rewrite directoryBlock_Ok in Hd1, Hd2.
  injection Hd1 as <-. injection Hd2 as <-.
  eexists _, _, _, _. split; [exact Hf1|]. split; [exact Hf2|]. simpl.
  rewrite !MDAcc_of_list, Hroots. by split_and!.
Qed.

(** *** The leaf-list nodes *)

(** An entry goes to the chain of its chain id and to no other: that chain,
    made on the spot if the map has none, gains the entry hash as its last
    leaf; every other chain of the map is as it was. *)
Lemma block_select_entry a entry :
  exists a' v',
    block_select a (RecvEntry entry) = Continue a' /\
    chains a' !! node.EH_ChainID entry = Some v' /\
    merkleDag.HashList (MD v') =
      from_option (fun v => merkleDag.HashList (MD v)) []
                  (chains a !! node.EH_ChainID entry)
      ++ [node.EH_EntryHash entry] /\
    forall c', c' ≠ node.EH_ChainID entry -> chains a' !! c' = chains a !! c'.
Proof.
  eexists _, _. split; [reflexivity|]. simpl. split_and!.
  - apply lookup_insert_eq.
  - by destruct (chains a !! node.EH_ChainID entry).
  - intros c' Hc'. by apply lookup_insert_ne.
Qed.

(** C7: every entry received in a block is appended to one chain, the
    chain of its chain id, which is made when its first entry arrives; and
    the flush that closes the block puts, for every chain [c] that received
    an entry, a leaf-list node whose [EntryList] is the leaf list of the
    chain's MD, that is the entry hashes received for [c] in the order of
    arrival, whose [ListMDRoot] is the root of that MD, and whose [IsNode]
    is false.  The node is found in the store under its digest when no two
    nodes put by the flush collide. *)
Theorem entries_in_leaf_list_nodes w a0 evs s c :
  range_ok w ->
  elapsed_secs w ≠ 0 ->
  chains a0 = ∅ ->
  block_loop evs a0 = Continue (this s) ->
  collision_free GetHash Marshal
    (flush_puts HashIt GetHash Marshal Version w (this s)) ->
  c ∈ node.EH_ChainID <$> entries_of evs ->
  (forall a entry, exists a' v',
     block_select a (RecvEntry entry) = Continue a' /\
     chains a' !! node.EH_ChainID entry = Some v' /\
     merkleDag.HashList (MD v') =
       from_option (fun v => merkleDag.HashList (MD v)) []
                   (chains a !! node.EH_ChainID entry)
       ++ [node.EH_EntryHash entry] /\
     forall c', c' ≠ node.EH_ChainID entry ->
                chains a' !! c' = chains a !! c') /\
  exists v s',
    chains (this s) !! c = Some v /\
    MD v = merkleDag.of_list HashIt (leaves_of c (entries_of evs)) /\
    merkleDag.HashList (MD v) = leaves_of c (entries_of evs) /\
    flush w s = Ok s' /\
    let n := leaf_node HashIt v in
    node.ChainID n = c /\
    node.BHeight n = height a0 /\
    node.EntryList n = leaves_of c (entries_of evs) /\
    node.ListMDRoot n = merkleDag.GetMDRoot HashIt (MD v) /\
    node.IsNode n = false /\
    database.Get (DB (this s')) types.Node (GetHash n) = Some (Marshal n).
Proof.
  intros Hw Hsecs Hempty Hloop Hcf Hc.
  split; [apply block_select_entry|].
  assert (is_Some (chains (this s) !! c)) as [v Hv].
  { rewrite (block_loop_from_empty _ _ _ c Hempty Hloop).
    destruct (leaves_of c (entries_of evs)) eqn:El; [|by eexists].
    by apply leaves_of_nil_iff in El. }
  destruct (block_loop_keyed _ _ _ _ _ Hempty Hloop Hv)
    as (_ & Hid & Hheight & HMD & Hleaves).
  destruct (flush_Ok w s Hsecs) as (db & d & Hd & Hf & _).
  pose proof (flush_DB _ _ _ Hf) as HDB. simpl in HDB.
  exists v. eexists. split; [done|]. split; [done|]. split; [done|].
  split; [exact Hf|]. simpl. split_and!; try done.
  rewrite HDB. apply Get_foldl_Put; [done|].
  unfold flush_puts. apply elem_of_app. left.
  apply list_elem_of_fmap. exists (c, v). split; [done|].
  by apply elem_of_visited.
Qed.

(** ** Further properties of [Init] *)


(** X2: when [Init] returns, the accumulator holds the store and the chain
    id it was given, an empty chain map and a fresh [mdFeed].  When the
    store has no head, [previous] and [height] are not touched: an
    accumulator that is initialised again keeps the values it had. *)
Theorem Init_Ok_fields a db id a' :
  Init a db id = Ok a' ->
  DB a' = db /\ chainID a' = id /\ chains a' = ∅ /\ mdFeed a' = [] /\
  (database.Get db types.NodeHead id = None ->
   previous a' = previous a /\ height a' = height a).
Proof.
  unfold accumulator.Init. simpl.
  destruct (database.Get db types.NodeHead id) as [hh|] eqn:E1; simpl;
    [|by intros [= <-]].
  destruct (database.Get db types.Node hh) as [head|]; [|done].
  destruct (Unmarshal head) as [[rest headNode]|]; [|done].
  by intros [= <-].
Qed.

(** X3: [Init] is idempotent: on the accumulator that [Init] returned,
    with the same store and chain id, it returns that accumulator again. *)
Theorem Init_idempotent a db id a' :
  Init a db id = Ok a' -> Init a' db id = Ok a'.
Proof.
  unfold accumulator.Init. simpl.
  destruct (database.Get db types.NodeHead id) as [hh|] eqn:E1; simpl;
    [|by intros [= <-]].
  destruct (database.Get db types.Node hh) as [head|]; [|done].
  destruct (Unmarshal head) as [[rest headNode]|]; [|done].
  by intros [= <-].
Qed.

(** ** Further properties of [Run] *)

(** *** Faults *)

Lemma flush_Panic w s p :
  flush w s = Panic p -> p = DivideByZero /\ elapsed_secs w = 0.
Proof.
  destruct (Z.eq_dec (elapsed_secs w) 0) as [E|E].
  - unfold accumulator.flush, int64_div. rewrite E. simpl.
    by intros [= <-].
  - destruct (flush_Ok w s E) as (db & d & _ & -> & _). done.
Qed.


Lemma block_select_ends_block a ev :
  match block_select a ev with
  | Continue _ => ends_block ev = false
  | Break a' => ends_block ev = true /\ a' = a
  end.
Proof.
  destruct ev as [m|entry|]; simpl; try done. by destruct (received m).
Qed.

Lemma ends_block_true ev : ends_block ev = true -> ev = RecvControl (Sent true).
Proof. by destruct ev as [[[]|]| |]. Qed.

Lemma Run_step_Panic s t p :
  Run_step s t = Panic p ->
  p = DivideByZero /\ t = (t.1, RecvControl (Sent true)) /\
  elapsed_secs t.1 = 0.
Proof.
  unfold accumulator.Run_step. destruct t as [w ev]. simpl.
  destruct (block_select (this s) ev) as [a|a] eqn:E; [done|].
  destruct (flush w _) as [s'|p'] eqn:F; simpl; [done|].
  intros [= <-]. apply flush_Panic in F as [-> ?].
  split; [done|]. split; [|done]. f_equal. apply ends_block_true.
  destruct ev as [m| |]; simpl in *; try done. by destruct (received m).
Qed.

(** X5: the only fault in which a run can end is the division by zero of
    the statistics, and it ends so at a [true] on the control channel that
    is received within the second in which [Run] started. *)
Theorem Run_panics_only_by_zero_seconds ts s p :
  Run_events ts s = Panic p ->
  p = DivideByZero /\
  exists w, (w, RecvControl (Sent true)) ∈ ts /\ elapsed_secs w = 0.
Proof.
  revert s. induction ts as [|t ts IH]; intros s; simpl; [done|].
  destruct (Run_step s t) as [[s1|s1]|p1] eqn:E.
  - intros H. apply IH in H as (-> & w & Hin & Hw).
    split; [done|]. exists w. split; [by right|done].
  - done.
  - intros [= ->]. apply Run_step_Panic in E as (-> & Ht & Hw).
    split; [done|]. exists t.1. split; [|done]. rewrite Ht at 2. by left.
Qed.

(** *** Blocks along a run *)

Lemma Run_events_app ts1 ts2 s :
  Run_events (ts1 ++ ts2) s =
  match Run_events ts1 s with
  | Ok (Continue s1) => Run_events ts2 s1
  | r => r
  end.
Proof.
  revert s. induction ts1 as [|t ts1 IH]; intros s; simpl; [done|].
  by destruct (Run_step s t) as [[s1|s1]|p].
Qed.

(** While the block is open, [Run] is its block loop. *)
Lemma Run_events_open ts s a :
  block_loop ts.*2 (this s) = Continue a ->
  Run_events ts s = Ok (Continue (mkRun a (total s) (directory s))).
Proof.
  revert s. induction ts as [|t ts IH]; intros s; simpl.
  - intros [= <-]. by destruct s.
  - unfold accumulator.Run_step.
    destruct (block_select (this s) t.2) as [a1|a1]; [|done].
    intros H. by rewrite (IH (mkRun a1 (total s) (directory s)) H).
Qed.

Lemma block_loop_open evs a :
  Forall (fun ev => ends_block ev = false) evs ->
  exists a', block_loop evs a = Continue a'.
Proof.
  intros H. revert a. induction H as [|ev evs Hev _ IH]; intros a; simpl.
  - by eexists.
  - pose proof (block_select_ends_block a ev) as Hsel.
    destruct (block_select a ev) as [a1|a1]; [apply IH|].
    destruct Hsel as [? _]. congruence.
Qed.

(** X6: a run publishes one root per block that it closes, in the order
    of the blocks: what it appends to [mdFeed] is the list of the
    [ListMDRoot]s of the directory blocks it writes, and it writes as many
    directory blocks as it receives [true] on the control channel. *)
Theorem Run_publishes_one_root_per_block ts s s' :
  Run_events ts s = Ok (Continue s') ->
  exists ds,
    directory s' = directory s ++ ds /\
    mdFeed (this s') = mdFeed (this s) ++ (node.ListMDRoot <$> ds) /\
    length ds = blocks_closed ts.
Proof.
  revert s. induction ts as [|t ts IH]; intros s; simpl.
  { intros [= <-]. exists []. by rewrite !app_nil_r. }
  destruct (Run_step s t) as [[s1|s1]|p] eqn:E; try done.
  intros H. apply IH in H as (ds & Hds & Hfeed & Hlen).
  unfold blocks_closed in *. simpl.
  pose proof (block_select_ends_block (this s) t.2) as Hends.
  apply Run_step_inv in E as (s1' & [= <-] & [(a & Hsel & ->)|[Hsel Hf]]).
  - rewrite Hsel in Hends. rewrite Hends.
    apply block_select_frame in Hsel as (_ & _ & _ & Hm & _). simpl in *.
    exists ds. by rewrite <- Hm.
  - rewrite Hsel in Hends. destruct Hends as [-> _].
    apply flush_inv in Hf as (db & d & _ & Hthis & Hdir & _).
    rewrite Hthis in Hfeed. simpl in *.
    exists (d :: ds). rewrite Hds, Hdir, Hfeed, <- !app_assoc. simpl.
    by rewrite Hlen.
Qed.

(** X7: nothing leaves the coordinator before the end of a block.  Along
    a schedule without [true] on the control channel, [Run] does not
    fault, puts nothing into the store, sends nothing on [mdFeed] and
    writes no directory block; it is the block loop on the chain map. *)
Theorem Run_open_block_writes_nothing ts s :
  Forall (fun t => ends_block t.2 = false) ts ->
  exists a,
    Run_events ts s = Ok (Continue (mkRun a (total s) (directory s))) /\
    block_loop ts.*2 (this s) = Continue a /\
    DB a = DB (this s) /\ mdFeed a = mdFeed (this s) /\
    height a = height (this s) /\ previous a = previous (this s).
Proof.
  intros Hopen.
  destruct (block_loop_open ts.*2 (this s)) as [a Ha].
  { by apply Forall_fmap. }
  exists a. split; [by apply Run_events_open|]. split; [done|].
  apply block_loop_chains in Ha as [(? & ? & ? & ? & ?) _]. done.
Qed.

(** X8: in an open block only the entries count.  Idle passes and [false]
    on the control channel, sent or read from the closed channel, leave the
    coordinator as it is: the block loop ends in the state in which it ends
    on the entries alone. *)
Theorem block_loop_entries_only evs a :
  Forall (fun ev => ends_block ev = false) evs ->
  block_loop evs a = block_loop (RecvEntry <$> entries_of evs) a.
Proof.
  intros H. revert a. induction H as [|ev evs Hev _ IH]; intros a; [done|].
  destruct ev as [m|entry|]; simpl in *.
  - rewrite Hev. apply IH.
  - apply IH.
  - apply IH.
Qed.

(** X9: what a chain accumulates does not depend on how its entries are
    interleaved with those of other chains.  Two blocks on the same store
    and at the same height in which the same entry hashes arrive for chain
    [c], in the same order, leave the same chain accumulator for [c], and
    so the same leaf-list node. *)
Theorem chain_independent_of_interleaving evs1 evs2 a1 a2 b1 b2 c :
  chains a1 = ∅ -> chains a2 = ∅ ->
  DB a1 = DB a2 -> height a1 = height a2 ->
  block_loop evs1 a1 = Continue b1 ->
  block_loop evs2 a2 = Continue b2 ->
  leaves_of c (entries_of evs1) = leaves_of c (entries_of evs2) ->
  chains b1 !! c = chains b2 !! c /\
  (leaf_node HashIt <$> chains b1 !! c) = (leaf_node HashIt <$> chains b2 !! c).
Proof.
  intros He1 He2 _ Hh H1 H2 Hl.
  assert (chains b1 !! c = chains b2 !! c) as E.
  { rewrite (block_loop_from_empty _ _ _ c He1 H1).
    rewrite (block_loop_from_empty _ _ _ c He2 H2).
    by rewrite Hl, Hh. }
  by rewrite E.
Qed.

(** X10: a flush empties the chain map, so a block starts from nothing.
    After a first block has been closed, the chains of the second block
    hold the entries of the second block alone. *)
Theorem blocks_do_not_share_chains ts1 w ts2 s a1 s1 a2 :
  block_loop ts1.*2 (this s) = Continue a1 ->
  flush w (mkRun a1 (total s) (directory s)) = Ok s1 ->
  block_loop ts2.*2 (this s1) = Continue a2 ->
  Run_events (ts1 ++ (w, RecvControl (Sent true)) :: ts2) s
  = Ok (Continue (mkRun a2 (total s1) (directory s1))) /\
  forall c,
    chains a2 !! c =
    match leaves_of c (entries_of ts2.*2) with
    | [] => None
    | (_ :: _) as hs => Some (feed (fresh_chain c (height (this s))) hs)
    end.
Proof.
  intros H1 Hf H2. split.
  - rewrite (app_assoc ts1 [_] ts2 : ts1 ++ _ :: ts2 = _).
    rewrite Run_events_app, (Run_events_block _ _ _ _ H1), Hf. simpl.
    by apply Run_events_open.
  - intros c.
    pose proof (flush_chains_empty _ _ _ Hf) as Hempty.
    rewrite (block_loop_from_empty _ _ _ c Hempty H2).
    apply flush_inv in Hf as (db & d & _ & -> & _). simpl.
    apply block_loop_chains in H1 as [(_ & _ & -> & _) _]. done.
Qed.

(** *** The directory, once more *)

Lemma sorted_chainEntries_sorted w a :
  range_ok w ->
  (forall k v, chains a !! k = Some v -> node.ChainID (Node v) = k) ->
  StronglySorted chain_lt (sorted_chainEntries HashIt GetHash Marshal w a).
Proof.
  intros Hw Hkeyed. unfold sorted_chainEntries. apply sort_Slice_sorted.
  unfold flush_chains. rewrite flush_chain_entries. simpl.
  rewrite chainEntries_keys by done. by apply NoDup_visited_keys.
Qed.

(** X11: the directory does not depend on the order in which [range]
    visits the chain map.  Whatever the two orders, the sorted lines are
    the same list, one line per chain of the map, and the directory blocks
    carry the same [ListMDRoot]. *)
Theorem directory_independent_of_range_order w1 w2 a0 evs a :
  range_ok w1 -> range_ok w2 ->
  chains a0 = ∅ ->
  block_loop evs a0 = Continue a ->
  sorted_chainEntries HashIt GetHash Marshal w1 a
  = sorted_chainEntries HashIt GetHash Marshal w2 a /\
  length (sorted_chainEntries HashIt GetHash Marshal w1 a) = size (chains a) /\
  exists d1 d2,
    directoryBlock w1 a = Ok d1 /\ directoryBlock w2 a = Ok d2 /\
    node.ListMDRoot d1 = node.ListMDRoot d2.
Proof.
  intros Hw1 Hw2 Hempty Hloop.
  assert (forall k v, chains a !! k = Some v -> node.ChainID (Node v) = k)
    as Hkeyed.
  { intros k v Hkv. by eapply block_loop_keyed. }
  assert (sorted_chainEntries HashIt GetHash Marshal w1 a
          = sorted_chainEntries HashIt GetHash Marshal w2 a) as E.
  { apply chain_lt_sorted_unique; [by apply sorted_chainEntries_sorted..|].
    rewrite !sorted_chainEntries_Permutation. unfold visited.
    by rewrite (Hw1 _), (Hw2 _). }
  split; [done|]. split.
  - rewrite sorted_chainEntries_Permutation, length_fmap. unfold visited.
    rewrite (Hw1 _). apply length_map_to_list.
  - eexists _, _. split; [apply directoryBlock_Ok|].
    split; [apply directoryBlock_Ok|]. simpl.
    by rewrite !MDAcc_of_list, E.
Qed.

(** X12: a block without entries.  The flush of an empty chain map puts
    the directory block and nothing else, leaves the running total as it
    is, and the directory block carries the root of an MD to which nothing
    was added. *)
Theorem empty_block_flush w s :
  range_ok w -> elapsed_secs w ≠ 0 -> chains (this s) = ∅ ->
  exists d s',
    flush w s = Ok s' /\
    directory s' = directory s ++ [d] /\
    DB (this s') = node.Put GetHash Marshal (DB (this s)) d /\
    node.ListMDRoot d = merkleDag.GetMDRoot HashIt merkleDag.empty /\
    mdFeed (this s') = mdFeed (this s) ++ [node.ListMDRoot d] /\
    total s' = total s.
Proof.
  intros Hw Hsecs Hempty.
  assert (visited w (this s) = []) as Hv.
  { unfold visited. rewrite Hempty, map_to_list_empty.
    apply Permutation_nil_r. by rewrite (Hw []). }
  destruct (flush_Ok w s Hsecs) as (db & d & Hd & Hf & ->).
  exists d. eexists. split; [exact Hf|]. simpl.
  rewrite directoryBlock_Ok in Hd. injection Hd as <-. simpl.
  unfold MDAcc, sorted_chainEntries, flush_chains. rewrite !Hv. simpl.
  split_and!; try done. lia.
Qed.

(** X13: the comparison function that the flush hands to [sort.Slice] is
    a strict order on the lines, as [sort.Slice] requires: irreflexive,
    asymmetric and transitive; and two lines that it does not order either
    way have the same chain id. *)
Theorem chainEntries_less_strict_order :
  (forall x, chainEntries_less x x = false) /\
  (forall x y, chainEntries_less x y = true -> chainEntries_less y x = false) /\
  (forall x y z, chainEntries_less x y = true -> chainEntries_less y z = true ->
                 chainEntries_less x z = true) /\
  (forall x y, chainEntries_less x y = false -> chainEntries_less y x = false ->
               node.NE_ChainID x = node.NE_ChainID y).
Proof.
  split_and!.
  - intros x. unfold chainEntries_less. by rewrite bytes_Compare_refl.
  - intros x y Hxy. apply chainEntries_less_lt in Hxy.
    destruct (chainEntries_less y x) eqn:Hyx; [|done].
    apply chainEntries_less_lt in Hyx.
    by destruct (bytes_Compare_asym _ _ Hxy).
  - intros x y z Hxy Hyz. apply chainEntries_less_lt in Hxy, Hyz.
    apply chainEntries_less_lt. unfold chain_lt in *.
    by eapply bytes_Compare_trans.
  - intros x y Hxy Hyx.
    destruct (decide (node.NE_ChainID x = node.NE_ChainID y)) as [|Hne];
      [done|].
    destruct (bytes_Compare_total _ _ Hne) as [H|H];
      apply chainEntries_less_lt in H; congruence.
Qed.

Lemma Run_events_directory_fields ts s s' :
  Run_events ts s = Ok (Continue s') ->
  exists ds, directory s' = directory s ++ ds /\
    Forall (fun d => node.IsNode d = true /\
                     node.ChainID d = chainID (this s) /\
                     node.Version d = Version /\
                     node.SequenceNum d = node.BHeight d /\
                     node.EntryList d = []) ds.
Proof.
  revert s. induction ts as [|t ts IH]; intros s; simpl.
  { intros [= <-]. exists []. by rewrite app_nil_r. }
  destruct (Run_step s t) as [[s1|s1]|p] eqn:E; try done.
  intros H. apply IH in H as (ds & Hds & Hall).
  apply Run_step_inv in E as (s1' & [= <-] & [(a & Hsel & ->)|[_ Hf]]).
  - apply block_select_frame in Hsel as (_ & Hc & _). simpl in *.
    exists ds. split; [done|]. by rewrite <- Hc.
  - apply flush_inv in Hf as (db & d & Hd & Hthis & Hdir & _).
    rewrite Hthis in Hall. simpl in *.
    exists (d :: ds). rewrite Hds, Hdir, <- app_assoc. split; [done|].
    constructor; [|done].
    rewrite directoryBlock_Ok in Hd. by injection Hd as <-.
Qed.

(** X14: every directory block that a run writes is marked as a node of
    nodes, carries the chain id and the version of the accumulator and a
    sequence number equal to its height, and has an empty [EntryList]: the
    sorted lines enter the block through [ListMDRoot] only and are not
    stored in it. *)
Theorem Run_directory_block_fields ts a s' :
  Run_events ts (Run_start a) = Ok (Continue s') ->
  Forall (fun d => node.IsNode d = true /\
                   node.ChainID d = chainID a /\
                   node.Version d = Version /\
                   node.SequenceNum d = node.BHeight d /\
                   node.EntryList d = []) (directory s').
Proof.
  intros H. by apply Run_events_directory_fields in H as (ds & -> & Hall).
Qed.

(** *** The statistics *)

Lemma entries_in_block_acc vs acc :
  foldl (fun sum (kv : types.Hash * ChainAcc) =>
           sum + Z.of_nat (length (merkleDag.HashList (MD kv.2)))) acc vs
  = acc + entries_in_block vs.
Proof.
  unfold entries_in_block. revert acc.
  induction vs as [|kv vs IH] using rev_ind; intros acc.
  - simpl. lia.
  - rewrite !foldl_app. simpl. rewrite IH. lia.
Qed.

Lemma entries_in_block_cons kv vs :
  entries_in_block (kv :: vs)
  = Z.of_nat (length (merkleDag.HashList (MD kv.2))) + entries_in_block vs.
Proof.
  unfold entries_in_block at 1. simpl. by rewrite entries_in_block_acc.
Qed.

Lemma entries_in_block_Permutation vs1 vs2 :
  vs1 ≡ₚ vs2 -> entries_in_block vs1 = entries_in_block vs2.
Proof.
  induction 1 as [|kv vs1 vs2 _ IH|kv1 kv2 vs|vs1 vs2 vs3 _ IH1 _ IH2].
  - done.
  - by rewrite !entries_in_block_cons, IH.
  - rewrite !entries_in_block_cons. lia.
  - by rewrite IH1.
Qed.

Lemma entries_in_block_insert (m : gmap types.Hash ChainAcc) k v' :
  merkleDag.HashList (MD v') ≠ [] ->
  length (merkleDag.HashList (MD v'))
  = S (from_option (fun v => length (merkleDag.HashList (MD v))) 0%nat
                   (m !! k)) ->
  entries_in_block (map_to_list (<[k:=v']> m))
  = entries_in_block (map_to_list m) + 1.
Proof.
  intros _ Hlen. destruct (m !! k) as [v|] eqn:Hk; simpl in Hlen.
  - rewrite <- (insert_delete_eq m).
    rewrite (entries_in_block_Permutation _ _
               (map_to_list_insert (delete k m) k v' (lookup_delete_eq m k))).
    rewrite <- (entries_in_block_Permutation _ _ (map_to_list_delete m k v Hk)).
    rewrite !entries_in_block_cons. simpl. lia.
  - rewrite (entries_in_block_Permutation _ _ (map_to_list_insert m k v' Hk)).
    rewrite entries_in_block_cons. simpl. lia.
Qed.

Lemma block_loop_entries_in_block evs a0 a :
  block_loop evs a0 = Continue a ->
  entries_in_block (map_to_list (chains a))
  = entries_in_block (map_to_list (chains a0))
    + Z.of_nat (length (entries_of evs)).
Proof.
  revert a0. induction evs as [|ev evs IH]; intros a0; simpl.
  { intros [= <-]. lia. }
  destruct (block_select a0 ev) as [a1|a1] eqn:E; [|done].
  intros H. rewrite (IH _ H). clear IH H.
  destruct ev as [m|entry|]; simpl in E.
  - destruct (received m); [done|]. injection E as <-. lia.
  - injection E as <-. simpl. rewrite entries_in_block_insert.
    + lia.
    + simpl. by destruct (merkleDag.HashList _).
    + simpl. rewrite length_app. simpl.
      destruct (chains a0 !! node.EH_ChainID entry); simpl; lia.
  - injection E as <-. lia.
Qed.

(** X15: the count of a block.  The flush adds to the running total the
    number of entries that were received in the block, each counted
    once. *)
Theorem flush_counts_entries w a0 evs s :
  range_ok w -> elapsed_secs w ≠ 0 ->
  chains a0 = ∅ ->
  block_loop evs a0 = Continue (this s) ->
  exists s', flush w s = Ok s' /\
    total s' = total s + Z.of_nat (length (entries_of evs)).
Proof.
  intros Hw Hsecs Hempty Hloop.
  destruct (flush_Ok w s Hsecs) as (db & d & _ & Hf & _).
  eexists. split; [exact Hf|]. simpl. f_equal.
  change (entries_in_block (visited w (this s))
          = Z.of_nat (length (entries_of evs))).
  unfold visited. rewrite (entries_in_block_Permutation _ _ (Hw _)).
  rewrite (block_loop_entries_in_block _ _ _ Hloop), Hempty.
  by rewrite map_to_list_empty.
Qed.

End Coordinator_properties.

(** ** The small instance, run *)

Section Scenario_runs.

Import Scenario.

Local Abbreviation Run_events' := (Run_events HashIt GetHash Marshal Version).
Local Abbreviation flush' := (flush HashIt GetHash Marshal Version).
Local Abbreviation lines' := (sorted_chainEntries HashIt GetHash Marshal).

Lemma range_ok_world : range_ok world.
Proof. by intros l. Qed.

(** [Init] on the store with a head gives [restarted]; on the empty store,
    [fresh]. *)
Example Init_store :
  Init Unmarshal Accumulator_zero store types.Hash_zero = Ok restarted /\
  Init Unmarshal Accumulator_zero ∅ types.Hash_zero = Ok fresh.
Proof. split; by vm_compute. Qed.

(** Restart on a store with a head, one block: the directory block has
    the zero digest as [Previous], which is not the digest of the head. *)
Lemma Run_directory_Previous_zero_witness :
  previous restarted = Some head_node /\
  GetHash head_node ≠ types.Hash_zero /\
  length (directory (run [end_block] restarted)) = 1%nat /\
  Forall (fun d => node.Previous d = types.Hash_zero)
         (directory (run [end_block] restarted)).
Proof.
  split; [reflexivity|]. split; [by vm_compute|]. split; [by vm_compute|].
  apply (Run_directory_Previous_zero HashIt GetHash Marshal Version
           [end_block] restarted).
  by vm_compute.
Defined.

(** Cold start, one block: one directory block has been written, and
    after the flush [previous] is still [nil]. *)
Lemma Run_previous_not_retained_witness :
  length (directory (run [end_block] fresh)) = 1%nat /\
  previous (this (run [end_block] fresh)) = None.
Proof.
  split; [by vm_compute|].
  apply (Run_previous_not_retained HashIt GetHash Marshal Version
           [end_block] fresh (run [end_block] fresh)).
  by vm_compute.
Defined.

(** Cold start, two blocks: both directory blocks have height 0. *)
Lemma Run_height_constant_witness :
  length (directory (run [end_block; end_block] fresh)) = 2%nat /\
  height (this (run [end_block; end_block] fresh)) = 0 /\
  Forall (fun d => node.BHeight d = 0)
         (directory (run [end_block; end_block] fresh)).
Proof.
  split; [by vm_compute|].
  apply (Run_height_constant HashIt GetHash Marshal Version
           [end_block; end_block] fresh).
  by vm_compute.
Defined.

Lemma Run_never_dereferences_nil_previous_witness :
  Run_events' [(world, entry Chain1 E1); end_block; end_block]
              (Run_start fresh)
  ≠ Panic NilDereference.
Proof.
  apply (Run_never_dereferences_nil_previous HashIt GetHash Marshal Version
           [(world, entry Chain1 E1); end_block; end_block] fresh).
  reflexivity.
Defined.

Lemma Init_head_or_cold_start_witness :
  (exists a', Init Unmarshal Accumulator_zero store types.Hash_zero = Ok a' /\
     previous a' = Some head_node /\ height a' = 1) /\
  (exists a', Init Unmarshal Accumulator_zero ∅ types.Hash_zero = Ok a' /\
     previous a' = None /\ height a' = 0).
Proof.
  split.
  - destruct (proj1 (Init_head_or_cold_start Unmarshal store types.Hash_zero)
                Accumulator_zero (GetHash head_node) (Marshal head_node)
                [] head_node) as (a' & Ha & Hp & _ & Hh).
    + reflexivity.
    + reflexivity.
    + reflexivity.
    + exists a'. split; [exact Ha|]. split; [exact Hp|].
      apply Hh. by vm_compute.
  - apply (proj2 (Init_head_or_cold_start Unmarshal ∅ types.Hash_zero)).
    reflexivity.
Defined.

(** Entries for [Chain2] arrive before the entries for [Chain1]: the
    directory lists [Chain1] first. *)
Lemma directory_lines_sorted_once_witness :
  node.NE_ChainID <$> lines' world (block interleaved fresh)
  = [Chain1; Chain2] /\
  StronglySorted chain_lt (lines' world (block interleaved fresh)).
Proof.
  split; [by vm_compute|].
  destruct (directory_lines_sorted_once HashIt GetHash Marshal Version
              world fresh interleaved (block interleaved fresh)) as [H _].
  - apply range_ok_world.
  - reflexivity.
  - by vm_compute.
  - exact H.
Defined.

(** The same entry under two chain ids: the lines differ, the root that
    is published does not. *)
Lemma directory_root_from_md_roots_only_witness :
  lines' world (block [entry Chain1 E1] fresh)
    ≠ lines' world (block [entry Chain2 E1] fresh) /\
  exists s1' s2',
    flush' world (Run_start (block [entry Chain1 E1] fresh)) = Ok s1' /\
    flush' world (Run_start (block [entry Chain2 E1] fresh)) = Ok s2' /\
    mdFeed (this s1') = mdFeed (this s2').
Proof.
  split; [by vm_compute|].
  destruct (directory_root_from_md_roots_only HashIt GetHash Marshal Version
              world (Run_start (block [entry Chain1 E1] fresh))
              world (Run_start (block [entry Chain2 E1] fresh)))
    as (s1' & s2' & d1 & d2 & F1 & F2 & _ & _ & _ & E & M1 & M2).
  - by vm_compute.
  - by vm_compute.
  - by vm_compute.
  - exists s1', s2'. split; [exact F1|]. split; [exact F2|].
    rewrite M1, M2, E. reflexivity.
Defined.

(** Interleaved entries: the leaf-list node of [Chain1] lists [E1], [E2]. *)
Lemma entries_in_leaf_list_nodes_witness :
  exists v s',
    chains (block interleaved fresh) !! Chain1 = Some v /\
    flush' world (Run_start (block interleaved fresh)) = Ok s' /\
    node.EntryList (leaf_node HashIt v) = [E1; E2] /\
    node.IsNode (leaf_node HashIt v) = false /\
    database.Get (DB (this s')) types.Node (GetHash (leaf_node HashIt v))
    = Some (Marshal (leaf_node HashIt v)).
Proof.
  destruct (entries_in_leaf_list_nodes HashIt GetHash Marshal Version
              world fresh interleaved
              (Run_start (block interleaved fresh)) Chain1)
    as (_ & v & s' & Hv & _ & _ & Hf & _ & _ & Hl & _ & Hk & Hg).
  - apply range_ok_world.
  - by vm_compute.
  - reflexivity.
  - by vm_compute.
  - by intros n1 n2 _ _ H.
  - vm_compute. right. left.
  - exists v, s'. split; [exact Hv|]. split; [exact Hf|].
    split; [exact Hl|]. split; [exact Hk|exact Hg].
Defined.

(** C9 as stated fails: after the control channel is closed, no schedule
    makes [Run] return, and an entry that arrives afterwards is taken into
    its chain as before. *)
Lemma closed_control_does_not_stop_Run :
  ~ (exists ts s',
       Run_events' ((world, RecvControl Closed) :: ts) (Run_start fresh)
       = Ok (Break s')) /\
  Run_events' [(world, RecvControl Closed); (world, entry Chain1 E1)]
              (Run_start fresh)
  = Ok (Continue (Run_start (block [entry Chain1 E1] fresh))) /\
  chains (block [entry Chain1 E1] fresh) !! Chain1
  = Some (mkChainAcc
            (node.set_BHeight 0 (node.set_ChainID Chain1 node.zero))
            (merkleDag.of_list HashIt [E1])).
Proof.
  split; [|split; by vm_compute].
  intros (ts & s' & H). by apply Run_events_never_returns in H.
Qed.

(** *** The further properties on the small instance *)

Lemma range_ok_world_reversed : range_ok world_reversed.
Proof. intros l. simpl. symmetry. apply Permutation_rev. Qed.

(** An accumulator that has a head, initialised again on an empty store:
    [previous] and the height stay. *)
Lemma Init_Ok_fields_witness :
  exists a',
    Init Unmarshal restarted ∅ types.Hash_zero = Ok a' /\
    DB a' = ∅ /\ previous a' = Some head_node /\ height a' = 1.
Proof.
  exists (mkAccumulator ∅ types.Hash_zero 1 ∅ [] (Some head_node)).
  destruct (Init_Ok_fields Unmarshal restarted ∅ types.Hash_zero
              (mkAccumulator ∅ types.Hash_zero 1 ∅ [] (Some head_node)))
    as (HDB & _ & _ & _ & H).
  - by vm_compute.
  - destruct H as [Hp Hh]; [reflexivity|].
    split; [by vm_compute|]. split; [exact HDB|]. split; [exact Hp|exact Hh].
Defined.

Lemma Init_idempotent_witness :
  Init Unmarshal restarted store types.Hash_zero = Ok restarted.
Proof.
  apply (Init_idempotent Unmarshal Accumulator_zero store types.Hash_zero).
  by vm_compute.
Defined.

(** A block closed within the second in which [Run] started. *)
Lemma Run_panics_only_by_zero_seconds_witness :
  Run_events' [(world, entry Chain1 E1);
               (world_same_second, RecvControl (Sent true))]
              (Run_start fresh) = Panic DivideByZero /\
  exists w,
    (w, RecvControl (Sent true))
      ∈ [(world, entry Chain1 E1);
         (world_same_second, RecvControl (Sent true))] /\
    elapsed_secs w = 0.
Proof.
  split; [by vm_compute|].
  apply (Run_panics_only_by_zero_seconds HashIt GetHash Marshal Version
           [(world, entry Chain1 E1);
            (world_same_second, RecvControl (Sent true))]
           (Run_start fresh) DivideByZero).
  by vm_compute.
Defined.

Lemma Run_publishes_one_root_per_block_witness :
  exists ds,
    directory (run [(world, entry Chain1 E1); end_block; end_block] fresh)
    = directory (Run_start fresh) ++ ds /\
    mdFeed (this (run [(world, entry Chain1 E1); end_block; end_block] fresh))
    = mdFeed (this (Run_start fresh)) ++ (node.ListMDRoot <$> ds) /\
    length ds = 2%nat.
Proof.
  apply (Run_publishes_one_root_per_block HashIt GetHash Marshal Version
           [(world, entry Chain1 E1); end_block; end_block]
           (Run_start fresh)).
  by vm_compute.
Defined.

Lemma Run_open_block_writes_nothing_witness :
  exists a,
    Run_events' (pair world <$> interleaved_idle) (Run_start fresh)
    = Ok (Continue (mkRun a 0 [])) /\
    DB a = ∅ /\ mdFeed a = [].
Proof.
  destruct (Run_open_block_writes_nothing HashIt GetHash Marshal Version
              (pair world <$> interleaved_idle) (Run_start fresh))
    as (a & Hrun & _ & HDB & Hfeed & _).
  - vm_compute. repeat constructor.
  - exists a. split; [exact Hrun|]. split; [exact HDB|exact Hfeed].
Defined.

Lemma block_loop_entries_only_witness :
  block_loop HashIt interleaved_idle fresh = block_loop HashIt interleaved fresh.
Proof.
  apply (block_loop_entries_only HashIt interleaved_idle fresh).
  vm_compute. repeat constructor.
Defined.

(** The entries of [Chain1] before or after the entry of [Chain2]. *)
Lemma chain_independent_of_interleaving_witness :
  chains (block interleaved fresh) !! Chain1
  = chains (block [entry Chain1 E1; entry Chain1 E2; entry Chain2 F1] fresh)
      !! Chain1.
Proof.
  destruct (chain_independent_of_interleaving HashIt
              interleaved [entry Chain1 E1; entry Chain1 E2; entry Chain2 F1]
              fresh fresh
              (block interleaved fresh)
              (block [entry Chain1 E1; entry Chain1 E2; entry Chain2 F1] fresh)
              Chain1) as [H _].
  - reflexivity.
  - reflexivity.
  - reflexivity.
  - reflexivity.
  - by vm_compute.
  - by vm_compute.
  - by vm_compute.
  - exact H.
Defined.

(** An entry for [Chain1] in the first block, one for [Chain2] in the
    second: the second block has no chain for [Chain1]. *)
Lemma blocks_do_not_share_chains_witness :
  chains (block [entry Chain2 F1]
            (this (run [(world, entry Chain1 E1); end_block] fresh)))
    !! Chain1 = None.
Proof.
  exact (proj2 (blocks_do_not_share_chains HashIt GetHash Marshal Version
                  [(world, entry Chain1 E1)] world [(world, entry Chain2 F1)]
                  (Run_start fresh)
                  (block [entry Chain1 E1] fresh)
                  (run [(world, entry Chain1 E1); end_block] fresh)
                  (block [entry Chain2 F1]
                     (this (run [(world, entry Chain1 E1); end_block] fresh)))
                  ltac:(by vm_compute) ltac:(by vm_compute)
                  ltac:(by vm_compute)) Chain1).
Defined.

(** The chain map visited in its stored order and in the reverse order. *)
Lemma directory_independent_of_range_order_witness :
  lines' world (block interleaved fresh)
  = lines' world_reversed (block interleaved fresh) /\
  length (lines' world (block interleaved fresh)) = 2%nat.
Proof.
  destruct (directory_independent_of_range_order HashIt GetHash Marshal
              Version world world_reversed fresh interleaved
              (block interleaved fresh)) as (H & Hlen & _).
  - apply range_ok_world.
  - apply range_ok_world_reversed.
  - reflexivity.
  - by vm_compute.
  - split; [exact H|]. rewrite Hlen. by vm_compute.
Defined.

Lemma empty_block_flush_witness :
  exists d s',
    flush' world (Run_start fresh) = Ok s' /\
    directory s' = [d] /\
    node.ListMDRoot d = types.Hash_zero /\
    total s' = 0.
Proof.
  destruct (empty_block_flush HashIt GetHash Marshal Version
              world (Run_start fresh))
    as (d & s' & Hf & Hdir & _ & Hroot & _ & Htotal).
  - apply range_ok_world.
  - by vm_compute.
  - reflexivity.
  - exists d, s'. split; [exact Hf|]. split; [exact Hdir|].
    split; [exact Hroot|exact Htotal].
Defined.

Lemma Run_directory_block_fields_witness :
  length (directory (run [end_block; end_block] restarted)) = 2%nat /\
  Forall (fun d => node.IsNode d = true /\
                   node.ChainID d = chainID restarted /\
                   node.Version d = Version /\
                   node.SequenceNum d = node.BHeight d /\
                   node.EntryList d = [])
         (directory (run [end_block; end_block] restarted)).
Proof.
  split; [by vm_compute|].
  apply (Run_directory_block_fields HashIt GetHash Marshal Version
           [end_block; end_block] restarted).
  by vm_compute.
Defined.

(** Three entries between idle passes: the total after the flush is 3. *)
Lemma flush_counts_entries_witness :
  exists s',
    flush' world (Run_start (block interleaved_idle fresh)) = Ok s' /\
    total s' = 3.
Proof.
  destruct (flush_counts_entries HashIt GetHash Marshal Version
              world fresh interleaved_idle
              (Run_start (block interleaved_idle fresh)))
    as (s' & Hf & Ht).
  - apply range_ok_world.
  - by vm_compute.
  - reflexivity.
  - by vm_compute.
  - exists s'. split; [exact Hf|exact Ht].
Defined.

End Scenario_runs.
